(** * Outline VPN management client: a shallow embedding of [OutlineClient.cpp]

    The client issues one HTTPS round trip per public operation and maps
    the outcome to typed failures.  This development embeds

    - the C++ standard library pieces the client uses ([std::to_string],
      [std::optional], [std::map], the [int] to [char] conversion),
    - the Boost pieces it calls (error codes, URL components, the JSON
      value model with its parser and serializer),
    - the client itself: constructor, the four per-verb transport
      operations and the five public key operations,

    and proves the properties stated about them. *)

From Stdlib Require Import ZArith NArith Arith List String Ascii Bool Lia.
Import ListNotations.

Local Open Scope string_scope.
Local Open Scope N_scope.

(** ** Bytes and byte strings *)

(** A [std::string] is a sequence of bytes; [code] is the value of one. *)
Definition code (c : ascii) : N := N_of_ascii c.
Definition chr (n : N) : ascii := ascii_of_N n.

(** The double quote character (code 34). *)
Definition dquote : ascii := chr 34.

(** Writes JSON sample texts with single quotes standing for double ones. *)
Fixpoint q (s : string) : string :=
  match s with
  | EmptyString => EmptyString
  | String c r => String (if code c =? 39 then dquote else c) (q r)
  end.

Fixpoint starts_with (p s : string) : bool :=
  match p, s with
  | EmptyString, _ => true
  | String a p', String b s' => Ascii.eqb a b && starts_with p' s'
  | String _ _, EmptyString => false
  end.

Fixpoint last_char (s : string) : option ascii :=
  match s with
  | EmptyString => None
  | String c EmptyString => Some c
  | String _ r => last_char r
  end.

Definition tail (s : string) : string :=
  match s with
  | EmptyString => EmptyString
  | String _ r => r
  end.

(** [boost::replace_all]: every occurrence of [pat], left to right and
    without overlap, becomes [rep].  [skip] counts the bytes of a match
    still to be dropped. *)
Fixpoint replace_from (pat rep s : string) (skip : nat) : string :=
  match s with
  | EmptyString => EmptyString
  | String c r =>
      match skip with
      | S k => replace_from pat rep r k
      | O =>
          if starts_with pat s
          then rep ++ replace_from pat rep r (String.length pat - 1)
          else String c (replace_from pat rep r 0)
      end
  end.

Definition replace_all (s pat rep : string) : string :=
  match pat with
  | EmptyString => s
  | _ => replace_from pat rep s 0
  end.

(** ** The C++ standard library *)

Module Std.

(** Decimal digits of a natural number, most significant first.  The fuel
    is the number of binary digits, which bounds the decimal ones. *)
Fixpoint digits_fuel (fuel : nat) (n : N) (acc : string) : string :=
  match fuel with
  | O => acc
  | S f =>
      let acc' := String (chr (48 + n mod 10)) acc in
      if n <? 10 then acc' else digits_fuel f (n / 10) acc'
  end.

Definition digits (n : N) : string :=
  digits_fuel (S (N.to_nat (N.size n))) n EmptyString.

(** [std::to_string(int)]. *)
Definition to_string (z : Z) : string :=
  match z with
  | Zneg p => String "-" (digits (Npos p))
  | _ => digits (Z.to_N z)
  end.

(** [static_cast<int>(unsigned)]: the value modulo 2^32, read as a signed
    32-bit integer. *)
Definition static_cast_int (u : Z) : Z :=
  let w := (u mod 2 ^ 32)%Z in
  if (w <? 2 ^ 31)%Z then w else (w - 2 ^ 32)%Z.

(** [static_cast<char>(int)], as a byte. *)
Definition char_of_int (i : Z) : ascii := chr (Z.to_N (i mod 256)%Z).

(** [std::string::operator=(char)]: the string becomes that one byte.
    Assigning an [int] to a [std::string] selects this overload, after the
    implicit conversion of the [int] to [char]. *)
Definition string_assign_char (c : ascii) : string := String c EmptyString.

(** [std::map<std::string, std::string>], kept in key order. *)
Definition map := list (string * string).

Fixpoint map_set (m : map) (k v : string) : map :=
  match m with
  | [] => [(k, v)]
  | (k', v') :: m' =>
      if String.eqb k k' then (k, v) :: m'
      else if String.ltb k k' then (k, v) :: m
      else (k', v') :: map_set m' k v
  end.

End Std.

(** ** Boost.System, Boost.Asio and Boost.Beast error codes *)

Module Sys.

(** [boost::system::error_code]: a value within a category.  The code is
    set (converts to [true]) when the value is not zero. *)
Record error_code := { category : string; value : Z }.

Definition failed (ec : error_code) : bool := negb (value ec =? 0)%Z.

Definition eqb (a b : error_code) : bool :=
  String.eqb (category a) (category b) && (value a =? value b)%Z.

Definition success : error_code := {| category := "system"; value := 0 |}.

End Sys.

Module Asio.
(** [boost::asio::error::eof], the second code of the [misc] category. *)
Definition eof : Sys.error_code := {| Sys.category := "asio.misc"; Sys.value := 2 |}.

(** [boost::asio::error::not_connected], the code [ENOTCONN] of the
    system category (107 on Linux). *)
Definition not_connected : Sys.error_code :=
  {| Sys.category := "system"; Sys.value := 107 |}.
End Asio.

Module Beast.
(** [boost::beast::http::error::end_of_stream]. *)
Definition end_of_stream : Sys.error_code :=
  {| Sys.category := "beast.http"; Sys.value := 1 |}.

Inductive verb := get | put | post | delete_.

Inductive field := host | user_agent | content_type | content_length.

(** [http::request<http::string_body>]. *)
Record request := {
  method_ : verb;
  target : string;
  version : N;
  fields : list (field * string);
  body : string
}.

(** [http::response<http::dynamic_body>] after [http::read]: the status
    as [result_int()] gives it, and the body bytes. *)
Record response := { result_int : Z; response_body : string }.

Definition set (f : field) (v : string) (r : request) : request :=
  {| method_ := method_ r; target := target r; version := version r;
     fields := fields r ++ [(f, v)]; body := body r |}.

Definition set_body (b : string) (r : request) : request :=
  {| method_ := method_ r; target := target r; version := version r;
     fields := fields r; body := b |}.

(** [prepare_payload] of a string body: Content-Length is its size. *)
Definition prepare_payload (r : request) : request :=
  set content_length (Std.digits (N.of_nat (String.length (body r)))) r.

End Beast.

(** ** Boost.URL *)

Module Urls.

(** The components of a [boost::urls::url] the client reads.  A query or
    a fragment may be absent, or present and empty. *)
Record url := {
  scheme : string;
  host : string;
  port : string;
  encoded_path : string;
  query : option string;
  fragment : option string
}.

Definition encoded_query (u : url) : string :=
  match query u with Some s => s | None => EmptyString end.

(** The url keeps its text in one NUL-terminated buffer.  The pointer
    [encoded_path().data()] is the start of the path within it, so a
    [std::string] built from that pointer runs to the end of the buffer:
    the path, then the query and the fragment with their delimiters. *)
Definition from_path_data (u : url) : string :=
  encoded_path u
  ++ match query u with Some s => String "?" s | None => EmptyString end
  ++ match fragment u with Some s => String "#" s | None => EmptyString end.

Definition set_encoded_path (u : url) (p : string) : url :=
  {| scheme := scheme u; host := host u; port := port u;
     encoded_path := p; query := query u; fragment := fragment u |}.

End Urls.

(** ** The repository's URL helpers and endpoint table *)

Module api.

(** Modelled from the spec: the endpoint templates of
    [outline/constants/ApiEndpoint.h], which is not among the sources.  The
    wire-protocol table gives the paths, with the key identifier
    placeholder written [{id}]. *)
Module Endpoints.
Definition GetAccessKeys : string := "/access-keys".
Definition GetAccessKeyById : string := "/access-keys/{id}".
Definition CreateAccessKey : string := "/access-keys".
Definition UpdateAccessKey : string := "/access-keys/{id}".
Definition DeleteAccessKey : string := "/access-keys/{id}".
End Endpoints.

(** Modelled from the spec: the placeholder name of
    [outline/constants/ApiEndpoint.h], the key identifier placeholder. *)
Module UrlParams.
Definition KeyId : string := "{id}".
End UrlParams.

End api.

Module utils.

(** Modelled from the spec: [utils::replacePlaceholders] of
    [outline/utils/UrlUtils.h], which is not among the sources: given a
    template with named placeholders and a mapping from placeholder to
    value, the template with all placeholders substituted. *)
Definition replacePlaceholders (template : string) (placeholders : Std.map) : string :=
  fold_left (fun t kv => replace_all t (fst kv) (snd kv)) placeholders template.

(** Modelled from the spec: [utils::appendUrl] of
    [outline/utils/UrlUtils.h], which is not among the sources: the base
    URL with the path segment concatenated to its path, without doubling
    the path separator where the two meet. *)
Definition appendUrl (u : Urls.url) (segment : string) : Urls.url :=
  let p := Urls.encoded_path u in
  let doubled :=
    match last_char p with
    | Some c => (code c =? 47) && starts_with "/" segment
    | None => false
    end in
  Urls.set_encoded_path u (p ++ (if doubled then tail segment else segment)).

End utils.

(** ** Boost.JSON *)

Module Json.

(** The part of Boost.JSON the client calls: the value type, the
    assignment to a member of an object, [serialize] and [parse] with the
    default options (strict JSON, UTF-8 checked, 32 levels of nesting).
    The library is not part of the repository; the definitions follow
    its documented behaviour. *)

(** The conversions between a JSON number text and a [double] are those
    of the library's floating-point routines.  They are kept abstract:
    [double_of_literal] is applied to a number text that has a fraction or
    an exponent, or that lies outside the 64-bit integers;
    [literal_of_double] is the text the serializer writes. *)
Class Double := {
  double : Type;
  double_of_literal : string -> double;
  literal_of_double : double -> string
}.

(** [boost::json::error], the codes the parser reports.  Which of them
    a malformed text gets is of no consequence for the client, which only
    forwards the text of the error. *)
Inductive error := syntax | extra_data | incomplete | too_deep.

Definition make_error_code (e : error) : Sys.error_code :=
  {| Sys.category := "boost.json";
     Sys.value := match e with
                  | syntax => 1 | extra_data => 2
                  | incomplete => 3 | too_deep => 5
                  end |}.

Inductive res (A : Type) := Ok (a : A) | Error (e : error).
Arguments Ok {A} a.
Arguments Error {A} e.

Section WithDouble.
Context {D : Double}.

(** [boost::json::value]: one constructor per [kind].  An object keeps
    its members in insertion order. *)
Unset Elimination Schemes.
Inductive value :=
| JNull
| JBool (b : bool)
| JInt64 (i : Z)
| JUInt64 (u : N)
| JDouble (d : double)
| JString (s : string)
| JArray (elements : list value)
| JObject (members : list (string * value)).
Set Elimination Schemes.

(** *** Objects *)

(** [object::operator[](key) = v]: the member is replaced where it
    stands, or added at the end. *)
Fixpoint object_set (members : list (string * value)) (k : string) (v : value)
  : list (string * value) :=
  match members with
  | [] => [(k, v)]
  | (k', v') :: rest =>
      if String.eqb k k' then (k, v) :: rest
      else (k', v') :: object_set rest k v
  end.

Fixpoint object_find (members : list (string * value)) (k : string) : option value :=
  match members with
  | [] => None
  | (k', v') :: rest => if String.eqb k k' then Some v' else object_find rest k
  end.

(** *** Serialization *)

Definition hex_digit (n : N) : ascii :=
  chr (if n <? 10 then 48 + n else 87 + n).

(** The escape of one byte inside a string: quote and backslash, the
    short escapes, [\u00XX] for the other control bytes, every other byte
    as it is. *)
Definition escape_char (c : ascii) : string :=
  let n := code c in
  if n =? 34 then String "\" (String dquote EmptyString)
  else if n =? 92 then "\\"
  else if n =? 8 then "\b"
  else if n =? 12 then "\f"
  else if n =? 10 then "\n"
  else if n =? 13 then "\r"
  else if n =? 9 then "\t"
  else if n <? 32 then
    "\u00" ++ String (hex_digit (n / 16)) (String (hex_digit (n mod 16)) EmptyString)
  else String c EmptyString.

Fixpoint escape (s : string) : string :=
  match s with
  | EmptyString => EmptyString
  | String c r => escape_char c ++ escape r
  end.

Definition serialize_string (s : string) : string :=
  String dquote (escape s ++ String dquote EmptyString).

(** Texts joined by commas. *)
Fixpoint join (l : list string) : string :=
  match l with
  | [] => EmptyString
  | [x] => x
  | x :: l' => x ++ "," ++ join l'
  end.

(** [boost::json::serialize]: no white space, members in their order. *)
Fixpoint serialize (v : value) : string :=
  match v with
  | JNull => "null"
  | JBool true => "true"
  | JBool false => "false"
  | JInt64 i => Std.to_string i
  | JUInt64 u => Std.digits u
  | JDouble d => literal_of_double d
  | JString s => serialize_string s
  | JArray l => "[" ++ join (List.map serialize l) ++ "]"
  | JObject l =>
      "{" ++ join (List.map (fun kv => serialize_string (fst kv) ++ ":" ++ serialize (snd kv)) l)
          ++ "}"
  end.

(** *** Parsing: lexical elements *)

Definition is_ws (c : ascii) : bool :=
  let n := code c in (n =? 32) || (n =? 9) || (n =? 10) || (n =? 13).

Fixpoint skip_ws (s : string) : string :=
  match s with
  | String c r => if is_ws c then skip_ws r else s
  | EmptyString => s
  end.

Definition is_digit (c : ascii) : bool := (48 <=? code c) && (code c <=? 57).

(** The longest prefix of digits, and what follows it. *)
Fixpoint span_digits (s : string) : string * string :=
  match s with
  | String c r =>
      if is_digit c
      then let (d, r') := span_digits r in (String c d, r')
      else (EmptyString, s)
  | EmptyString => (EmptyString, EmptyString)
  end.

Fixpoint digits_value (s : string) (acc : N) : N :=
  match s with
  | EmptyString => acc
  | String c r => digits_value r (10 * acc + (code c - 48))
  end.

(** Consumes the keyword [lit]. *)
Fixpoint expect (lit s : string) : res string :=
  match lit with
  | EmptyString => Ok s
  | String a lit' =>
      match s with
      | EmptyString => Error incomplete
      | String b s' => if Ascii.eqb a b then expect lit' s' else Error syntax
      end
  end.

Definition hex_value (c : ascii) : option N :=
  let n := code c in
  if (48 <=? n) && (n <=? 57) then Some (n - 48)
  else if (97 <=? n) && (n <=? 102) then Some (n - 87)
  else if (65 <=? n) && (n <=? 70) then Some (n - 55)
  else None.

Definition hex4 (a b c d : ascii) : option N :=
  match hex_value a, hex_value b, hex_value c, hex_value d with
  | Some x, Some y, Some z, Some w => Some (((x * 16 + y) * 16 + z) * 16 + w)
  | _, _, _, _ => None
  end.

(** The UTF-8 bytes of a code point. *)
Definition utf8_encode (cp : N) : string :=
  if cp <? 0x80 then String (chr cp) EmptyString
  else if cp <? 0x800 then
    String (chr (0xC0 + cp / 64)) (String (chr (0x80 + cp mod 64)) EmptyString)
  else if cp <? 0x10000 then
    String (chr (0xE0 + cp / 4096))
      (String (chr (0x80 + (cp / 64) mod 64))
         (String (chr (0x80 + cp mod 64)) EmptyString))
  else
    String (chr (0xF0 + cp / 262144))
      (String (chr (0x80 + (cp / 4096) mod 64))
         (String (chr (0x80 + (cp / 64) mod 64))
            (String (chr (0x80 + cp mod 64)) EmptyString))).

(** Well-formed UTF-8 sequences of two, three and four bytes: no overlong
    form, no surrogate, nothing above U+10FFFF. *)
Definition cont (c : ascii) : bool := (0x80 <=? code c) && (code c <=? 0xBF).

Definition utf8_2 (c1 c2 : ascii) : bool :=
  (0xC2 <=? code c1) && (code c1 <=? 0xDF) && cont c2.

Definition utf8_3 (c1 c2 c3 : ascii) : bool :=
  (0xE0 <=? code c1) && (code c1 <=? 0xEF) && cont c2 && cont c3
  && (if code c1 =? 0xE0 then 0xA0 <=? code c2 else true)
  && (if code c1 =? 0xED then code c2 <=? 0x9F else true).

Definition utf8_4 (c1 c2 c3 c4 : ascii) : bool :=
  (0xF0 <=? code c1) && (code c1 <=? 0xF4) && cont c2 && cont c3 && cont c4
  && (if code c1 =? 0xF0 then 0x90 <=? code c2 else true)
  && (if code c1 =? 0xF4 then code c2 <=? 0x8F else true).

(** The byte an escape letter stands for. *)
Definition unescape_simple (e : ascii) : option ascii :=
  let n := code e in
  if n =? 34 then Some (chr 34)
  else if n =? 92 then Some (chr 92)
  else if n =? 47 then Some (chr 47)
  else if n =? 98 then Some (chr 8)
  else if n =? 102 then Some (chr 12)
  else if n =? 110 then Some (chr 10)
  else if n =? 114 then Some (chr 13)
  else if n =? 116 then Some (chr 9)
  else None.

Definition push {A : Type} (piece : string) (r : res (string * A)) : res (string * A) :=
  match r with
  | Ok (s, rest) => Ok (piece ++ s, rest)
  | Error e => Error e
  end.

(** The content of a string, from after its opening quote to its closing
    one: escapes are decoded (a [\u] escape to UTF-8, surrogate pairs
    combined), raw bytes must be well-formed UTF-8 without control bytes.
    Gives the decoded content and the input after the closing quote. *)
Fixpoint scan (s : string) : res (string * string) :=
  match s with
  | EmptyString => Error incomplete
  | String c r =>
    let n := code c in
    if n =? 34 then Ok (EmptyString, r)
    else if n =? 92 then
      match r with
      | EmptyString => Error incomplete
      | String e r1 =>
        if code e =? 117 then
          match r1 with
          | String h1 (String h2 (String h3 (String h4 r2))) =>
            match hex4 h1 h2 h3 h4 with
            | None => Error syntax
            | Some u1 =>
              if (0xD800 <=? u1) && (u1 <=? 0xDBFF) then
                match r2 with
                | String b (String u (String l1 (String l2 (String l3 (String l4 r3))))) =>
                  if (code b =? 92) && (code u =? 117) then
                    match hex4 l1 l2 l3 l4 with
                    | None => Error syntax
                    | Some u2 =>
                      if (0xDC00 <=? u2) && (u2 <=? 0xDFFF)
                      then push (utf8_encode (0x10000 + (u1 - 0xD800) * 1024 + (u2 - 0xDC00)))
                                (scan r3)
                      else Error syntax
                    end
                  else Error syntax
                | _ => Error incomplete
                end
              else if (0xDC00 <=? u1) && (u1 <=? 0xDFFF) then Error syntax
              else push (utf8_encode u1) (scan r2)
            end
          | _ => Error incomplete
          end
        else
          match unescape_simple e with
          | Some b => push (String b EmptyString) (scan r1)
          | None => Error syntax
          end
      end
    else if n <? 32 then Error syntax
    else if n <? 128 then push (String c EmptyString) (scan r)
    else if n <? 0xE0 then
      match r with
      | String c2 r1 =>
        if utf8_2 c c2 then push (String c (String c2 EmptyString)) (scan r1)
        else Error syntax
      | _ => Error incomplete
      end
    else if n <? 0xF0 then
      match r with
      | String c2 (String c3 r1) =>
        if utf8_3 c c2 c3
        then push (String c (String c2 (String c3 EmptyString))) (scan r1)
        else Error syntax
      | _ => Error incomplete
      end
    else
      match r with
      | String c2 (String c3 (String c4 r1)) =>
        if utf8_4 c c2 c3 c4
        then push (String c (String c2 (String c3 (String c4 EmptyString)))) (scan r1)
        else Error syntax
      | _ => Error incomplete
      end
  end.

(** *** Parsing: numbers *)

(** The fraction of a number, if any: the point and its digits. *)
Definition lex_fraction (s : string) : res (string * string) :=
  match s with
  | String c r =>
      if code c =? 46 then
        let (d, r') := span_digits r in
        match d, r' with
        | EmptyString, EmptyString => Error incomplete
        | EmptyString, _ => Error syntax
        | _, _ => Ok (String c d, r')
        end
      else Ok (EmptyString, s)
  | EmptyString => Ok (EmptyString, s)
  end.

(** The exponent of a number, if any: the letter, a sign, the digits. *)
Definition lex_exponent (s : string) : res (string * string) :=
  match s with
  | String c r =>
      if (code c =? 101) || (code c =? 69) then
        let (sign, r0) :=
          match r with
          | String g r0 =>
              if (code g =? 43) || (code g =? 45)
              then (String g EmptyString, r0) else (EmptyString, r)
          | EmptyString => (EmptyString, r)
          end in
        let (d, r') := span_digits r0 in
        match d, r' with
        | EmptyString, EmptyString => Error incomplete
        | EmptyString, _ => Error syntax
        | _, _ => Ok (String c (sign ++ d), r')
        end
      else Ok (EmptyString, s)
  | EmptyString => Ok (EmptyString, s)
  end.

(** The kind of a number without fraction and exponent: [int64] when it
    fits, else [uint64] when it fits, else [double]. *)
Definition integer_value (neg : bool) (ip : string) : value :=
  let m := digits_value ip 0 in
  if neg then
    if m <=? 2 ^ 63 then JInt64 (- Z.of_N m)
    else JDouble (double_of_literal (String "-" ip))
  else if m <? 2 ^ 63 then JInt64 (Z.of_N m)
  else if m <? 2 ^ 64 then JUInt64 m
  else JDouble (double_of_literal ip).

(** A number after its sign: the integer digits, without a leading zero
    before another digit, then the fraction and the exponent. *)
Definition number_body (neg : bool) (s1 : string) : res (value * string) :=
  let (ip, s2) := span_digits s1 in
  match ip with
  | EmptyString =>
      match s1 with EmptyString => Error incomplete | _ => Error syntax end
  | String d0 ip' =>
      if (code d0 =? 48) && negb (String.eqb ip' EmptyString) then Error syntax
      else
        match lex_fraction s2 with
        | Error e => Error e
        | Ok (fp, s3) =>
            match lex_exponent s3 with
            | Error e => Error e
            | Ok (ep, s4) =>
                match fp, ep with
                | EmptyString, EmptyString => Ok (integer_value neg ip, s4)
                | _, _ =>
                    Ok (JDouble (double_of_literal
                                   ((if neg then "-" else EmptyString) ++ ip ++ fp ++ ep)),
                        s4)
                end
            end
        end
  end.

Definition parse_number (s : string) : res (value * string) :=
  match s with
  | String c r => if code c =? 45 then number_body true r else number_body false s
  | EmptyString => number_body false s
  end.

(** *** Parsing: values *)

Definition keyword (lit : string) (v : value) (s : string) : res (value * string) :=
  match expect lit s with
  | Ok rest => Ok (v, rest)
  | Error e => Error e
  end.

(** The members of a parsed object, in the order read; a repeated key
    keeps its first place and takes the later value. *)
Definition object_of (ms : list (string * value)) : list (string * value) :=
  fold_left (fun o kv => object_set o (fst kv) (snd kv)) ms [].

(** The recursive-descent parser.  [depth] is the number of container
    levels still allowed; [fuel] bounds the recursion and is given in
    excess of what any input of that length needs ([None] is out of
    fuel).  [parse_elements] and [parse_members] start at the first byte
    of an element or of a key and read up to the closing bracket. *)
Fixpoint parse_value (fuel depth : nat) (s : string) {struct fuel}
  : option (res (value * string)) :=
  match fuel with
  | O => None
  | S f =>
    match s with
    | EmptyString => Some (Error incomplete)
    | String c r =>
      let n := code c in
      if n =? 91 then
        match depth with
        | O => Some (Error too_deep)
        | S d =>
          match skip_ws r with
          | EmptyString => Some (Error incomplete)
          | String c' r' =>
            if code c' =? 93 then Some (Ok (JArray [], r'))
            else
              match parse_elements f d (String c' r') with
              | None => None
              | Some (Error e) => Some (Error e)
              | Some (Ok (l, rest)) => Some (Ok (JArray l, rest))
              end
          end
        end
      else if n =? 123 then
        match depth with
        | O => Some (Error too_deep)
        | S d =>
          match skip_ws r with
          | EmptyString => Some (Error incomplete)
          | String c' r' =>
            if code c' =? 125 then Some (Ok (JObject [], r'))
            else
              match parse_members f d (String c' r') with
              | None => None
              | Some (Error e) => Some (Error e)
              | Some (Ok (ms, rest)) => Some (Ok (JObject (object_of ms), rest))
              end
          end
        end
      else if n =? 34 then
        match scan r with
        | Ok (str, rest) => Some (Ok (JString str, rest))
        | Error e => Some (Error e)
        end
      else if n =? 110 then Some (keyword "null" JNull s)
      else if n =? 116 then Some (keyword "true" (JBool true) s)
      else if n =? 102 then Some (keyword "false" (JBool false) s)
      else if (n =? 45) || is_digit c then Some (parse_number s)
      else Some (Error syntax)
    end
  end
with parse_elements (fuel depth : nat) (s : string) {struct fuel}
  : option (res (list value * string)) :=
  match fuel with
  | O => None
  | S f =>
    match parse_value f depth s with
    | None => None
    | Some (Error e) => Some (Error e)
    | Some (Ok (v, r)) =>
      match skip_ws r with
      | EmptyString => Some (Error incomplete)
      | String c r' =>
        if code c =? 44 then
          match parse_elements f depth (skip_ws r') with
          | None => None
          | Some (Error e) => Some (Error e)
          | Some (Ok (vs, rest)) => Some (Ok (v :: vs, rest))
          end
        else if code c =? 93 then Some (Ok ([v], r'))
        else Some (Error syntax)
      end
    end
  end
with parse_members (fuel depth : nat) (s : string) {struct fuel}
  : option (res (list (string * value) * string)) :=
  match fuel with
  | O => None
  | S f =>
    match s with
    | EmptyString => Some (Error incomplete)
    | String c r =>
      if code c =? 34 then
        match scan r with
        | Error e => Some (Error e)
        | Ok (k, r1) =>
          match skip_ws r1 with
          | EmptyString => Some (Error incomplete)
          | String c1 r2 =>
            if code c1 =? 58 then
              match parse_value f depth (skip_ws r2) with
              | None => None
              | Some (Error e) => Some (Error e)
              | Some (Ok (v, r3)) =>
                match skip_ws r3 with
                | EmptyString => Some (Error incomplete)
                | String c3 r4 =>
                  if code c3 =? 44 then
                    match parse_members f depth (skip_ws r4) with
                    | None => None
                    | Some (Error e) => Some (Error e)
                    | Some (Ok (ms, rest)) => Some (Ok ((k, v) :: ms, rest))
                    end
                  else if code c3 =? 125 then Some (Ok ([(k, v)], r4))
                  else Some (Error syntax)
                end
              end
            else Some (Error syntax)
          end
        end
      else Some (Error syntax)
    end
  end.

(** The library's default limit on nesting. *)
Definition max_depth : nat := 32.

(** [boost::json::parse(s)]: one value, white space around it allowed,
    nothing after it.  The throwing overload raises a [system_error]
    carrying the code given here on the left.  The fuel handed to
    [parse_value] is never used up, so the last case does not arise. *)
Definition parse (s : string) : Sys.error_code + value :=
  match parse_value (S (2 * String.length s)) max_depth (skip_ws s) with
  | Some (Ok (v, rest)) =>
      match skip_ws rest with
      | EmptyString => inr v
      | _ => inl (make_error_code extra_data)
      end
  | Some (Error e) => inl (make_error_code e)
  | None => inl (make_error_code syntax)
  end.

(** *** Vocabulary for the statements *)

(** What may follow a number text: the end of the input, or a byte that
    cannot continue a number. *)
Definition number_end (rest : string) : bool :=
  match rest with
  | EmptyString => true
  | String c _ =>
      negb (is_digit c || (code c =? 46) || (code c =? 101) || (code c =? 69))
  end.

Definition not_digit_start (rest : string) : bool :=
  match rest with
  | EmptyString => true
  | String c _ => negb (is_digit c)
  end.

(** A double reads back when the text the serializer writes for it is a
    number text that the parser reads as that double. *)
Definition reparses (d : double) : Prop :=
  parse_number (literal_of_double d) = Ok (JDouble d, EmptyString).

(** The doubles that occur in a value. *)
Fixpoint doubles_of (v : value) : list double :=
  match v with
  | JDouble d => [d]
  | JArray l => flat_map doubles_of l
  | JObject ms => flat_map (fun kv => doubles_of (snd kv)) ms
  | _ => []
  end.

Fixpoint all_digits (s : string) : bool :=
  match s with
  | EmptyString => true
  | String c r => is_digit c && all_digits r
  end.

(** Well-formed UTF-8, the content a parsed string has. *)
Inductive utf8 : string -> Prop :=
| utf8_nil : utf8 EmptyString
| utf8_1 c r : code c < 0x80 -> utf8 r -> utf8 (String c r)
| utf8_seq2 c1 c2 r : utf8_2 c1 c2 = true -> utf8 r -> utf8 (String c1 (String c2 r))
| utf8_seq3 c1 c2 c3 r :
    utf8_3 c1 c2 c3 = true -> utf8 r -> utf8 (String c1 (String c2 (String c3 r)))
| utf8_seq4 c1 c2 c3 c4 r :
    utf8_4 c1 c2 c3 c4 = true -> utf8 r ->
    utf8 (String c1 (String c2 (String c3 (String c4 r)))).

(** The values the parser produces, for a number of container levels:
    integers of the kind and range the parser assigns, strings and keys
    in UTF-8, no key twice in an object, nesting within the levels.
    Doubles are not constrained. *)
Unset Elimination Schemes.
Inductive parsed : nat -> value -> Prop :=
| parsed_null d : parsed d JNull
| parsed_bool d b : parsed d (JBool b)
| parsed_int64 d i : (- 2 ^ 63 <= i < 2 ^ 63)%Z -> parsed d (JInt64 i)
| parsed_uint64 d u : 2 ^ 63 <= u < 2 ^ 64 -> parsed d (JUInt64 u)
| parsed_double d x : parsed d (JDouble x)
| parsed_string d s : utf8 s -> parsed d (JString s)
| parsed_array d l : Forall (parsed d) l -> parsed (S d) (JArray l)
| parsed_object d ms :
    Forall (fun kv => utf8 (fst kv) /\ parsed d (snd kv)) ms ->
    NoDup (List.map fst ms) ->
    parsed (S d) (JObject ms).
Set Elimination Schemes.

(** The members of a parsed object, before repeated keys are merged. *)
Definition members_parsed (d : nat) (ms : list (string * value)) : Prop :=
  Forall (fun kv => utf8 (fst kv) /\ parsed d (snd kv)) ms.

(** The first byte of a serialized value: no white space and no closing
    bracket. *)
Definition opens (s : string) : Prop :=
  exists c t, s = String c t /\ is_ws c = false /\ code c <> 93 /\ code c <> 125.

(** The text of one member of an object. *)
Definition member_text (kv : string * value) : string :=
  serialize_string (fst kv) ++ ":" ++ serialize (snd kv).

(** The property proved by induction on the value: from enough fuel on,
    the parser reads the serialized value back and stops after it. *)
Definition reads_back (v : value) : Prop :=
  forall d rest,
    parsed d v -> Forall reparses (doubles_of v) -> number_end rest = true ->
    exists f0, forall f, (f0 <= f)%nat ->
      parse_value f d (serialize v ++ rest) = Some (Ok (v, rest)).

End WithDouble.
End Json.

(** ** The client *)

Module outline.

(** What the build and the libraries fix and the client takes as given:
    the user-agent text, Boost.URL's [parse_uri], the text of
    [system_error::what()] for an error code, and the floating-point
    conversions of Boost.JSON. *)
Class Platform := {
  BOOST_BEAST_VERSION_STRING : string;
  parse_uri : string -> Sys.error_code + Urls.url;
  what : Sys.error_code -> string;
  json_double : Json.Double
}.
#[global] Existing Instance json_double.

(** The exceptions that leave the client's functions.  The two Outline
    exceptions are built from their message. *)
Inductive exception :=
| OutlineParseException (message : string)
| OutlineServerErrorException (message : string)
| system_error (ec : Sys.error_code).

Definition result (A : Type) : Type := (exception + A)%type.

(** *** State and exceptions

    A computation runs on a state, and ends with a value or with an
    exception; the state reached is kept in both cases. *)
Definition M (S A : Type) : Type := S -> result A * S.

Definition ret {S A : Type} (a : A) : M S A := fun s => (inr a, s).

Definition bind {S A B : Type} (m : M S A) (k : A -> M S B) : M S B :=
  fun s =>
    match m s with
    | (inr a, s') => k a s'
    | (inl e, s') => (inl e, s')
    end.

Definition throw {S A : Type} (e : exception) : M S A := fun s => (inl e, s).

Definition gets {S A : Type} (f : S -> A) : M S A := fun s => (inr (f s), s).

Definition modify {S : Type} (f : S -> S) : M S unit := fun s => (inr tt, f s).

(** Runs a computation on the first component of the state. *)
Definition on_fst {S R A : Type} (m : M S A) : M (S * R) A :=
  fun s =>
    match m (fst s) with
    | (r, s') => (r, (s', snd s))
    end.

Notation "x <- c1 ;; c2" := (bind c1 (fun x => c2))
  (at level 61, c1 at next level, right associativity).
Notation "' pat <- c1 ;; c2" := (bind c1 (fun x => match x with pat => c2 end))
  (at level 61, pat pattern, c1 at next level, right associativity).
Notation "c1 ;; c2" := (bind c1 (fun _ => c2))
  (at level 61, right associativity).

Definition outcome {S A : Type} (r : result A * S) : result A := fst r.
Definition final {S A : Type} (r : result A * S) : S := snd r.

(** *** The client object and the network *)

Inductive verify_mode := verify_none | verify_peer.

(** The data members the operations read or assign as values: the API
    URL, the certificate, the timeout, and the verification mode set on
    [m_sslContext].  The io context, the socket and the TLS stream are
    not fields of the record: what connecting, the handshake, writing,
    reading and the shutdown do on the stream during a round trip is
    given by the [network] the operation runs against. *)
Record OutlineClient := {
  m_apiUrl : Urls.url;
  m_cert : string;
  m_timeout : Z;
  m_verify_mode : verify_mode
}.

Definition set_apiUrl (u : Urls.url) (c : OutlineClient) : OutlineClient :=
  {| m_apiUrl := u; m_cert := m_cert c; m_timeout := m_timeout c;
     m_verify_mode := m_verify_mode c |}.

(** The client together with what it has written to its TLS stream. *)
Record world := { self : OutlineClient; wire : list Beast.request }.

Definition assign_apiUrl (u : Urls.url) : M world unit :=
  modify (fun w => {| self := set_apiUrl u (self w); wire := wire w |}).

Definition sent (req : Beast.request) : M world unit :=
  modify (fun w => {| self := self w; wire := wire w ++ [req] |}).

(** How the network answers during one round trip: the error code each
    step ends with, and the response message as [http::read] leaves it. *)
Record network := {
  resolve_ec : Sys.error_code;
  connect_ec : Sys.error_code;
  handshake_ec : Sys.error_code;
  write_ec : Sys.error_code;
  read_ec : Sys.error_code;
  read_response : Beast.response;
  shutdown_ec : Sys.error_code
}.

(** The overloads without an [error_code] parameter throw
    [system_error] when the step fails. *)
Definition throwing {S : Type} (ec : Sys.error_code) : M S unit :=
  if Sys.failed ec then throw (system_error ec) else ret tt.

(** [http::write]: the request is on the wire when the step succeeds. *)
Definition http_write (net : network) (req : Beast.request) : M world Sys.error_code :=
  if Sys.failed (write_ec net) then ret (write_ec net)
  else sent req ;; ret (write_ec net).

Section Client.
Context {P : Platform}.

(** *** Construction

    The constructor [OutlineClient::OutlineClient].  A URL text that
    [parse_uri] rejects makes [value()] throw, which the constructor
    turns into the parse exception.  The calls that configure the TLS
    context afterwards are taken to succeed. *)

Definition new_OutlineClient (apiUrl cert : string) (timeout : Z) : result OutlineClient :=
  match parse_uri apiUrl with
  | inl e => inl (OutlineParseException ("Unable to parse API URL: " ++ what e))
  | inr u =>
      inr {| m_apiUrl := u; m_cert := cert; m_timeout := timeout;
             m_verify_mode := verify_none |}
  end.

(** *** Destruction

    The destructor [OutlineClient::~OutlineClient] shuts the stream down
    with an [error_code], so it throws nothing; a failure other than
    [not_connected] is reported on [std::cerr].  The result is what it
    writes there, line by line.  [message] is [error_code::message], and
    [shutdown] the code the shutdown ends with. *)
Definition delete_OutlineClient (message : Sys.error_code -> string)
           (shutdown : Sys.error_code) : list string :=
  let ec := shutdown in
  if Sys.failed ec && negb (Sys.eqb ec Asio.not_connected)
  then ["Shutdown error: " ++ message ec]
  else [].

(** *** Transport, one operation per verb

    Each operation resolves, connects, performs the handshake, writes
    the request, reads the response and shuts the stream down.  GET, PUT
    and DELETE use the throwing overloads up to the read; POST passes an
    [error_code] to every step and tests it. *)

(** The target of the request: the text from the start of the path, and
    the query once more when it is not empty. *)
Definition request_target (url : Urls.url) : string :=
  let target := Urls.from_path_data url in
  if String.eqb (Urls.encoded_query url) EmptyString then target
  else target ++ "?" ++ Urls.encoded_query url.

Definition doHttpsGet (net : network) (url : Urls.url) : M world (Z * string) :=
  throwing (resolve_ec net) ;;
  throwing (connect_ec net) ;;
  throwing (handshake_ec net) ;;
  let host := Urls.host url in
  let target := request_target url in
  let req := {| Beast.method_ := Beast.get; Beast.target := target;
                Beast.version := 11; Beast.fields := [];
                Beast.body := EmptyString |} in
  let req := Beast.set Beast.host host req in
  let req := Beast.set Beast.user_agent BOOST_BEAST_VERSION_STRING req in
  ec <- http_write net req ;;
  throwing ec ;;
  throwing (read_ec net) ;;
  let res := read_response net in
  let ec := shutdown_ec net in
  if Sys.failed ec && negb (Sys.eqb ec Asio.eof) then throw (system_error ec)
  else
    let statusCode := Std.static_cast_int (Beast.result_int res) in
    let bodyStr := Beast.response_body res in
    ret (statusCode, bodyStr).

Definition doGet (net : network) (url : Urls.url) : M world (Z * string) :=
  doHttpsGet net url.

Definition doHttpsPut (net : network) (url : Urls.url) (body : string)
  : M world (Z * string) :=
  throwing (resolve_ec net) ;;
  throwing (connect_ec net) ;;
  throwing (handshake_ec net) ;;
  let host := Urls.host url in
  let target := request_target url in
  let req := {| Beast.method_ := Beast.put; Beast.target := target;
                Beast.version := 11; Beast.fields := [];
                Beast.body := EmptyString |} in
  let req := Beast.set Beast.host host req in
  let req := Beast.set Beast.user_agent BOOST_BEAST_VERSION_STRING req in
  let req := Beast.set Beast.content_type "application/json" req in
  let req := Beast.set_body body req in
  let req := Beast.prepare_payload req in
  ec <- http_write net req ;;
  throwing ec ;;
  throwing (read_ec net) ;;
  let res := read_response net in
  let ec := shutdown_ec net in
  if Sys.failed ec && negb (Sys.eqb ec Asio.eof) then throw (system_error ec)
  else
    let statusCode := Std.static_cast_int (Beast.result_int res) in
    let bodyStr := Beast.response_body res in
    ret (statusCode, bodyStr).

Definition doPut (net : network) (url : Urls.url) (body : string)
  : M world (Z * string) :=
  doHttpsPut net url body.

Definition doHttpsPost (net : network) (url : Urls.url) (body : string)
  : M world (Z * string) :=
  let ec := resolve_ec net in
  if Sys.failed ec then throw (system_error ec) else
  let ec := connect_ec net in
  if Sys.failed ec then throw (system_error ec) else
  let ec := handshake_ec net in
  if Sys.failed ec then throw (system_error ec) else
  let target := request_target url in
  let req := {| Beast.method_ := Beast.post; Beast.target := target;
                Beast.version := 11; Beast.fields := [];
                Beast.body := EmptyString |} in
  let req := Beast.set Beast.host (Urls.host url) req in
  let req := Beast.set Beast.user_agent BOOST_BEAST_VERSION_STRING req in
  let req := Beast.set Beast.content_type "application/json" req in
  let req := Beast.set_body body req in
  let req := Beast.prepare_payload req in
  ec <- http_write net req ;;
  if Sys.failed ec then throw (system_error ec) else
  let res := read_response net in
  let ec := read_ec net in
  if Sys.failed ec && negb (Sys.eqb ec Beast.end_of_stream)
  then throw (system_error ec) else
  let ec := shutdown_ec net in
  if Sys.failed ec && negb (Sys.eqb ec Asio.eof) then throw (system_error ec)
  else
    let statusCode := Std.static_cast_int (Beast.result_int res) in
    let bodyStr := Beast.response_body res in
    ret (statusCode, bodyStr).

Definition doPost (net : network) (url : Urls.url) (body : string)
  : M world (Z * string) :=
  doHttpsPost net url body.

Definition doHttpsDelete (net : network) (url : Urls.url) : M world (Z * string) :=
  throwing (resolve_ec net) ;;
  throwing (connect_ec net) ;;
  throwing (handshake_ec net) ;;
  let host := Urls.host url in
  let target := request_target url in
  let req := {| Beast.method_ := Beast.delete_; Beast.target := target;
                Beast.version := 11; Beast.fields := [];
                Beast.body := EmptyString |} in
  let req := Beast.set Beast.host host req in
  let req := Beast.set Beast.user_agent BOOST_BEAST_VERSION_STRING req in
  ec <- http_write net req ;;
  throwing ec ;;
  throwing (read_ec net) ;;
  let res := read_response net in
  let ec := shutdown_ec net in
  if Sys.failed ec && negb (Sys.eqb ec Asio.eof) then throw (system_error ec)
  else
    let statusCode := Std.static_cast_int (Beast.result_int res) in
    let bodyStr := Beast.response_body res in
    ret (statusCode, bodyStr).

Definition doDelete (net : network) (url : Urls.url) : M world (Z * string) :=
  doHttpsDelete net url.


(** *** Request parameters

    The two parameter structs are declared in [outline/OutlineClient.h],
    which is not among the sources; their fields are the four optional
    ones the client reads. *)

(** Modelled from the spec: the fields of [CreateAccessKeyParams]:
    name, password and method are optional strings, data_limit_bytes an
    optional unsigned integer. *)
Record CreateAccessKeyParams := {
  create_name : option string;
  create_password : option string;
  create_method : option string;
  create_data_limit_bytes : option N
}.

(** Modelled from the spec: the fields of [UpdateAccessKeyParams], the
    same four optional fields. *)
Record UpdateAccessKeyParams := {
  update_name : option string;
  update_password : option string;
  update_method : option string;
  update_data_limit_bytes : option N
}.

(** *** The public operations

    An argument passed by reference lives in the caller: it is the second
    component of the state the operation runs on. *)

Definition apiUrl : M world Urls.url := gets (fun w => m_apiUrl (self w)).

Definition getAccessKeys (net : network) : M world string :=
  u <- apiUrl ;;
  assign_apiUrl (utils.appendUrl u api.Endpoints.GetAccessKeys) ;;
  u <- apiUrl ;;
  ' (statusKeys, bodyKeys) <- doGet net u ;;
  if negb (statusKeys =? 200)%Z then
    throw (OutlineServerErrorException
             ("Unable to get keys (status=" ++ Std.to_string statusKeys ++ ")"))
  else
    match Json.parse bodyKeys with
    | inl e => throw (OutlineParseException ("JSON parse error for keys: " ++ what e))
    | inr keysVal => ret (Json.serialize keysVal)
    end.

Definition getAccessKey (net : network) : M (world * string) string :=
  accessKeyId <- gets snd ;;
  let placeholders := Std.map_set [] api.UrlParams.KeyId accessKeyId in
  let endpoint :=
    utils.replacePlaceholders api.Endpoints.GetAccessKeyById placeholders in
  on_fst (
    u <- apiUrl ;;
    assign_apiUrl (utils.appendUrl u endpoint) ;;
    u <- apiUrl ;;
    ' (statusKey, bodyKey) <- doGet net u ;;
    if negb (statusKey =? 200)%Z then
      throw (OutlineServerErrorException
               ("Unable to get key (status=" ++ Std.to_string statusKey ++ ")"))
    else
      match Json.parse bodyKey with
      | inl e => throw (OutlineParseException ("JSON parse error for key: " ++ what e))
      | inr keyVal => ret (Json.serialize keyVal)
      end).

Definition createAccessKey (net : network) : M (world * CreateAccessKeyParams) string :=
  on_fst (
    u <- apiUrl ;;
    assign_apiUrl (utils.appendUrl u api.Endpoints.CreateAccessKey)) ;;
  params <- gets snd ;;
  let keyObj : list (string * Json.value) := [] in
  let keyObj :=
    match create_name params with
    | Some v => Json.object_set keyObj "name" (Json.JString v)
    | None => keyObj
    end in
  let keyObj :=
    match create_password params with
    | Some v => Json.object_set keyObj "password" (Json.JString v)
    | None => keyObj
    end in
  let keyObj :=
    match create_method params with
    | Some v => Json.object_set keyObj "method" (Json.JString v)
    | None => keyObj
    end in
  let keyObj :=
    match create_data_limit_bytes params with
    | Some v =>
        let dataLimitObj : list (string * Json.value) := [] in
        let dataLimitObj := Json.object_set dataLimitObj "bytes" (Json.JUInt64 v) in
        Json.object_set keyObj "limit" (Json.JObject dataLimitObj)
    | None => keyObj
    end in
  let keyStr := Json.serialize (Json.JObject keyObj) in
  on_fst (
    u <- apiUrl ;;
    ' (statusKey, bodyKey) <- doPost net u keyStr ;;
    if negb (statusKey =? 201)%Z then
      throw (OutlineServerErrorException
               ("Unable to create key (status=" ++ Std.to_string statusKey ++ ")"))
    else
      match Json.parse bodyKey with
      | inl e => throw (OutlineParseException ("JSON parse error for key: " ++ what e))
      | inr keyVal => ret (Json.serialize keyVal)
      end).

Definition updateAccessKey (net : network) (accessKeyId : Z)
  : M (world * UpdateAccessKeyParams) string :=
  let placeholders :=
    Std.map_set [] api.UrlParams.KeyId
      (Std.string_assign_char (Std.char_of_int accessKeyId)) in
  let endpoint :=
    utils.replacePlaceholders api.Endpoints.UpdateAccessKey placeholders in
  on_fst (
    u <- apiUrl ;;
    assign_apiUrl (utils.appendUrl u endpoint)) ;;
  params <- gets snd ;;
  let keyObj : list (string * Json.value) := [] in
  let keyObj :=
    match update_name params with
    | Some v => Json.object_set keyObj "name" (Json.JString v)
    | None => keyObj
    end in
  let keyObj :=
    match update_password params with
    | Some v => Json.object_set keyObj "password" (Json.JString v)
    | None => keyObj
    end in
  let keyObj :=
    match update_method params with
    | Some v => Json.object_set keyObj "method" (Json.JString v)
    | None => keyObj
    end in
  let keyObj :=
    match update_data_limit_bytes params with
    | Some v =>
        let dataLimitObj : list (string * Json.value) := [] in
        let dataLimitObj := Json.object_set dataLimitObj "bytes" (Json.JUInt64 v) in
        Json.object_set keyObj "limit" (Json.JObject dataLimitObj)
    | None => keyObj
    end in
  let keyStr := Json.serialize (Json.JObject keyObj) in
  on_fst (
    u <- apiUrl ;;
    ' (statusKey, bodyKey) <- doPut net u keyStr ;;
    if negb (statusKey =? 201)%Z then
      throw (OutlineServerErrorException
               ("Unable to update key (status=" ++ Std.to_string statusKey ++ ")"))
    else
      match Json.parse bodyKey with
      | inl e => throw (OutlineParseException ("JSON parse error for key: " ++ what e))
      | inr keyVal => ret (Json.serialize keyVal)
      end).

Definition deleteAccessKey (net : network) : M (world * string) unit :=
  accessKeyId <- gets snd ;;
  let placeholders := Std.map_set [] api.UrlParams.KeyId accessKeyId in
  let endpoint :=
    utils.replacePlaceholders api.Endpoints.DeleteAccessKey placeholders in
  on_fst (
    u <- apiUrl ;;
    assign_apiUrl (utils.appendUrl u endpoint) ;;
    u <- apiUrl ;;
    ' (statusKey, bodyKey) <- doDelete net u ;;
    if negb (statusKey =? 204)%Z then
      throw (OutlineServerErrorException
               ("Unable to delete key (status=" ++ Std.to_string statusKey ++ ")"))
    else ret tt).


(** *** Vocabulary for the statements *)

(** The steps of a round trip, in the order the transport takes them. *)
Inductive step := Resolve | Connect | Handshake | Write | Read | Shutdown.

Definition steps : list step := [Resolve; Connect; Handshake; Write; Read; Shutdown].

Definition step_ec (net : network) (s : step) : Sys.error_code :=
  match s with
  | Resolve => resolve_ec net
  | Connect => connect_ec net
  | Handshake => handshake_ec net
  | Write => write_ec net
  | Read => read_ec net
  | Shutdown => shutdown_ec net
  end.

(** The failures a verb's transport lets pass: [eof] at the shutdown,
    and for POST also [end_of_stream] at the read. *)
Definition tolerated (v : Beast.verb) (s : step) (ec : Sys.error_code) : bool :=
  match s, v with
  | Shutdown, _ => Sys.eqb ec Asio.eof
  | Read, Beast.post => Sys.eqb ec Beast.end_of_stream
  | _, _ => false
  end.

(** The transport fault of a round trip: the error code of the first
    step that fails with a code not let pass, if there is one. *)
Definition fault (v : Beast.verb) (net : network) : option Sys.error_code :=
  match find (fun s => Sys.failed (step_ec net s) && negb (tolerated v s (step_ec net s)))
             steps with
  | Some s => Some (step_ec net s)
  | None => None
  end.

(** The status code and the body as the public operation sees them. *)
Definition observed_status (net : network) : Z :=
  Std.static_cast_int (Beast.result_int (read_response net)).

Definition observed_body (net : network) : string :=
  Beast.response_body (read_response net).

(** The four transport operations under one name. *)
Definition transport (v : Beast.verb) (net : network) (url : Urls.url) (body : string)
  : M world (Z * string) :=
  match v with
  | Beast.get => doHttpsGet net url
  | Beast.put => doHttpsPut net url body
  | Beast.post => doHttpsPost net url body
  | Beast.delete_ => doHttpsDelete net url
  end.

(** The request reaches the wire when the steps up to the write succeed. *)
Definition writes (net : network) : bool :=
  negb (Sys.failed (resolve_ec net)) && negb (Sys.failed (connect_ec net))
  && negb (Sys.failed (handshake_ec net)) && negb (Sys.failed (write_ec net)).

(** What an operation added to the wire. *)
Definition emitted (before after : world) : list Beast.request :=
  skipn (List.length (wire before)) (wire after).

Definition is_parse_exception {A : Type} (r : result A) : bool :=
  match r with
  | inl (OutlineParseException _) => true
  | _ => false
  end.

(** The members a request body has for given optional fields: one per
    field that is present, the data limit nested under [limit]. *)
Definition present {A : Type} (k : string) (f : A -> Json.value) (o : option A)
  : list (string * Json.value) :=
  match o with
  | Some a => [(k, f a)]
  | None => []
  end.

Definition request_object (name password method : option string) (limit : option N)
  : Json.value :=
  Json.JObject
    (present "name" Json.JString name
     ++ present "password" Json.JString password
     ++ present "method" Json.JString method
     ++ present "limit" (fun b => Json.JObject [("bytes", Json.JUInt64 b)]) limit).

(** The same network with another response body. *)
Definition with_body (net : network) (b : string) : network :=
  {| resolve_ec := resolve_ec net; connect_ec := connect_ec net;
     handshake_ec := handshake_ec net; write_ec := write_ec net;
     read_ec := read_ec net;
     read_response := {| Beast.result_int := Beast.result_int (read_response net);
                         Beast.response_body := b |};
     shutdown_ec := shutdown_ec net |}.


(** The outcome of an operation that expects one status and returns the
    re-serialized body, in terms of the round trip's fault and response. *)
Definition answer (v : Beast.verb) (expected : Z) (unable parsing : string)
           (net : network) : result string :=
  match fault v net with
  | Some ec => inl (system_error ec)
  | None =>
      if (observed_status net =? expected)%Z then
        match Json.parse (observed_body net) with
        | inl e => inl (OutlineParseException (parsing ++ what e))
        | inr val => inr (Json.serialize val)
        end
      else
        inl (OutlineServerErrorException
               (unable ++ Std.to_string (observed_status net) ++ ")"))
  end.

(** The endpoint a key operation resolves for the identifier text. *)
Definition resolved (template id : string) : string :=
  utils.replacePlaceholders template (Std.map_set [] api.UrlParams.KeyId id).


(** The state an operation leaves: the stored URL replaced, and the
    requests written added to the wire. *)
Definition after (w : world) (u : Urls.url) (reqs : list Beast.request) : world :=
  {| self := set_apiUrl u (self w); wire := wire w ++ reqs |}.

(** The request of a round trip for a verb, at a URL, with a body. *)
Definition request_for (v : Beast.verb) (url : Urls.url) (body : string)
           (req : Beast.request) : Prop :=
  Beast.method_ req = v
  /\ Beast.target req = request_target url
  /\ Beast.body req = match v with
                      | Beast.put | Beast.post => body
                      | _ => EmptyString
                      end.

(** The outcome of the delete operation, which returns nothing. *)
Definition answer_delete (net : network) : result unit :=
  match fault Beast.delete_ net with
  | Some ec => inl (system_error ec)
  | None =>
      if (observed_status net =? 204)%Z then inr tt
      else
        inl (OutlineServerErrorException
               ("Unable to delete key (status="
                  ++ Std.to_string (observed_status net) ++ ")"))
  end.

Definition create_object (p : CreateAccessKeyParams) : Json.value :=
  request_object (create_name p) (create_password p) (create_method p)
                 (create_data_limit_bytes p).

Definition update_object (p : UpdateAccessKeyParams) : Json.value :=
  request_object (update_name p) (update_password p) (update_method p)
                 (update_data_limit_bytes p).

(** The identifier text the update operation substitutes. *)
Definition update_id_text (accessKeyId : Z) : string :=
  Std.string_assign_char (Std.char_of_int accessKeyId).


(** A step passes when it does not fail, or fails with a code the verb's
    transport lets pass. *)
Definition passes (v : Beast.verb) (net : network) (s : step) : Prop :=
  Sys.failed (step_ec net s) = false \/ tolerated v s (step_ec net s) = true.


(** *** Vocabulary for the further statements *)

Definition is_system_error {A : Type} (r : result A) : bool :=
  match r with
  | inl (system_error _) => true
  | _ => false
  end.

(** The target the transport code sets out to build for a URL: the path,
    then a question mark and the query when the query is not empty. *)
Definition path_and_query (url : Urls.url) : string :=
  Urls.encoded_path url
  ++ (if String.eqb (Urls.encoded_query url) EmptyString then EmptyString
      else "?" ++ Urls.encoded_query url).

(** The request a transport operation writes for a verb, a URL and a
    body: PUT and POST carry the body with its type and length, GET and
    DELETE carry none. *)
Definition framed (v : Beast.verb) (url : Urls.url) (body : string) : Beast.request :=
  {| Beast.method_ := v;
     Beast.target := request_target url;
     Beast.version := 11;
     Beast.fields :=
       (Beast.host, Urls.host url)
       :: (Beast.user_agent, BOOST_BEAST_VERSION_STRING)
       :: match v with
          | Beast.put | Beast.post =>
              [(Beast.content_type, "application/json");
               (Beast.content_length, Std.digits (N.of_nat (String.length body)))]
          | _ => []
          end;
     Beast.body := match v with
                   | Beast.put | Beast.post => body
                   | _ => EmptyString
                   end |}.

(** A request without a body: version 1.1, the Host and User-Agent
    fields and nothing else. *)
Definition bodiless (host : string) (req : Beast.request) : Prop :=
  Beast.version req = 11
  /\ Beast.fields req
     = [(Beast.host, host); (Beast.user_agent, BOOST_BEAST_VERSION_STRING)]
  /\ Beast.body req = EmptyString.

(** A request with a JSON body: version 1.1, the Host and User-Agent
    fields, the JSON content type, and a Content-Length of decimal digits
    whose value is the size of the body. *)
Definition carries_json (host : string) (req : Beast.request) : Prop :=
  Beast.version req = 11
  /\ exists len,
       Beast.fields req
       = [(Beast.host, host); (Beast.user_agent, BOOST_BEAST_VERSION_STRING);
          (Beast.content_type, "application/json"); (Beast.content_length, len)]
       /\ Json.all_digits len = true
       /\ Json.digits_value len 0 = N.of_nat (String.length (Beast.body req)).

(** The settings of the client other than the URL are the same in two
    states, and the second wire extends the first. *)
Definition settings_kept (w w' : world) : Prop :=
  m_cert (self w') = m_cert (self w)
  /\ m_timeout (self w') = m_timeout (self w)
  /\ m_verify_mode (self w') = m_verify_mode (self w)
  /\ firstn (List.length (wire w)) (wire w') = wire w.

(** The same state with another certificate text and another timeout. *)
Definition with_cert_timeout (cert : string) (timeout : Z) (w : world) : world :=
  {| self := {| m_apiUrl := m_apiUrl (self w); m_cert := cert; m_timeout := timeout;
                m_verify_mode := m_verify_mode (self w) |};
     wire := wire w |}.

(** The steps before the shutdown. *)
Definition steps_before_shutdown : list step := [Resolve; Connect; Handshake; Write; Read].

(** The number a JSON parser reads from the digits of an unsigned
    integer: a signed one when it is below 2^63. *)
Definition read_integer (b : N) : Json.value :=
  if b <? 2 ^ 63 then Json.JInt64 (Z.of_N b) else Json.JUInt64 b.

(** The value a JSON parser reads from the body built for given optional
    fields: the members of [request_object], the data limit as the
    parser classifies it. *)
Definition received_object (name password method : option string) (limit : option N)
  : Json.value :=
  Json.JObject
    (present "name" Json.JString name
     ++ present "password" Json.JString password
     ++ present "method" Json.JString method
     ++ present "limit" (fun b => Json.JObject [("bytes", read_integer b)]) limit).

(** The optional fields a parser can read back: the strings are
    well-formed UTF-8 and the data limit is below 2^64. *)
Definition readable (name password method : option string) (limit : option N) : Prop :=
  (forall s, In (Some s) [name; password; method] -> Json.utf8 s)
  /\ (forall b, limit = Some b -> b < 2 ^ 64).

End Client.

(** *** Sample data for concrete runs *)

Module samples.

(** A representation of doubles by their number text, for runs on
    documents whose numbers need no rounding. *)
Definition text_double : Json.Double :=
  {| Json.double := string;
     Json.double_of_literal := fun s => s;
     Json.literal_of_double := fun s => s |}.

Definition base_url : Urls.url :=
  {| Urls.scheme := "https"; Urls.host := "vpn.example.org"; Urls.port := "8443";
     Urls.encoded_path := "/secret"; Urls.query := None; Urls.fragment := None |}.

Definition malformed : Sys.error_code :=
  {| Sys.category := "boost.url"; Sys.value := 1 |}.

(** A platform whose URL parser knows one absolute URL. *)
Definition platform : Platform :=
  {| BOOST_BEAST_VERSION_STRING := "Boost.Beast";
     parse_uri := fun s =>
       if String.eqb s "https://vpn.example.org:8443/secret"
       then inr base_url else inl malformed;
     what := fun ec => Sys.category ec ++ ":" ++ Std.to_string (Sys.value ec);
     json_double := text_double |}.

Definition client : OutlineClient :=
  {| m_apiUrl := base_url; m_cert := EmptyString; m_timeout := 5;
     m_verify_mode := verify_none |}.

Definition fresh : world := {| self := client; wire := [] |}.

(** A round trip without any failure and with the given response. *)
Definition answers (status : Z) (body : string) : network :=
  {| resolve_ec := Sys.success; connect_ec := Sys.success;
     handshake_ec := Sys.success; write_ec := Sys.success;
     read_ec := Sys.success;
     read_response := {| Beast.result_int := status; Beast.response_body := body |};
     shutdown_ec := Sys.success |}.

(** The peer closes the connection before any response arrives: the
    read ends with [end_of_stream] and the response message is as
    constructed, with status 200 and no body. *)
Definition closes_early : network :=
  {| resolve_ec := Sys.success; connect_ec := Sys.success;
     handshake_ec := Sys.success; write_ec := Sys.success;
     read_ec := Beast.end_of_stream;
     read_response := {| Beast.result_int := 200; Beast.response_body := EmptyString |};
     shutdown_ec := Asio.eof |}.

(** The TLS handshake fails. *)
Definition tls_failure : Sys.error_code :=
  {| Sys.category := "asio.ssl"; Sys.value := 167772294 |}.

Definition handshake_fails : network :=
  {| resolve_ec := Sys.success; connect_ec := Sys.success;
     handshake_ec := tls_failure; write_ec := Sys.success;
     read_ec := Sys.success;
     read_response := {| Beast.result_int := 0; Beast.response_body := EmptyString |};
     shutdown_ec := Sys.success |}.

Definition create_nothing : CreateAccessKeyParams :=
  {| create_name := None; create_password := None; create_method := None;
     create_data_limit_bytes := None |}.

Definition create_alice : CreateAccessKeyParams :=
  {| create_name := Some "alice"; create_password := None; create_method := None;
     create_data_limit_bytes := Some 1000 |}.

Definition update_method_only : UpdateAccessKeyParams :=
  {| update_name := None; update_password := None;
     update_method := Some "aes-256-gcm"; update_data_limit_bytes := None |}.

(** A key listing with a string outside ASCII, a nested object,
    integers of both signs and a number with fraction and exponent. *)
Definition listing : string :=
  q "{ 'accessKeys': [ {'id':'1', 'name':'café', 'limit':{'bytes':1000}}, -7, 2.5e3 ] }".

Definition listing_value : Json.value (D := text_double) :=
  Json.JObject
    [("accessKeys",
      Json.JArray
        [Json.JObject
           [("id", Json.JString "1");
            ("name", Json.JString ("caf" ++ String (chr 195) (String (chr 169) EmptyString)));
            ("limit", Json.JObject [("bytes", Json.JInt64 1000)])];
         Json.JInt64 (-7);
         Json.JDouble (D := text_double) "2.5e3"])].

(** The peer closes the connection before any response arrives, and the
    shutdown then fails because the stream is not connected. *)
Definition closes_early_unconnected : network :=
  {| resolve_ec := Sys.success; connect_ec := Sys.success;
     handshake_ec := Sys.success; write_ec := Sys.success;
     read_ec := Beast.end_of_stream;
     read_response := {| Beast.result_int := 200; Beast.response_body := EmptyString |};
     shutdown_ec := Asio.not_connected |}.

(** The base URL with a query. *)
Definition base_url_with_query : Urls.url :=
  {| Urls.scheme := "https"; Urls.host := "vpn.example.org"; Urls.port := "8443";
     Urls.encoded_path := "/secret"; Urls.query := Some "limit=10";
     Urls.fragment := None |}.

End samples.

End outline.


Import outline.

(** * Properties of the library models *)

(** ** Bytes and strings *)

Lemma code_chr (n : N) : n < 256 -> code (chr n) = n.
Proof. apply N_ascii_embedding. Qed.

Lemma chr_code (c : ascii) : chr (code c) = c.
Proof. apply ascii_N_embedding. Qed.

Lemma string_app_assoc (a b c : string) : (a ++ b) ++ c = a ++ b ++ c.
Proof. induction a as [| x a IH]; cbn; [reflexivity | now rewrite IH]. Qed.

Lemma string_app_nil_r (s : string) : s ++ EmptyString = s.
Proof. induction s as [| c s IH]; cbn; [reflexivity | now rewrite IH]. Qed.

Lemma string_length_app (a b : string) :
  String.length (a ++ b) = (String.length a + String.length b)%nat.
Proof. induction a as [| x a IH]; cbn; [reflexivity | now rewrite IH]. Qed.

(** Decides the comparisons of byte codes in a goal. *)
(** Linear arithmetic with division and remainder by constants. *)
Ltac nlia := zify; Z.to_euclidean_division_equations; lia.

Ltac codes :=
  repeat match goal with
         | |- context [(?a =? ?b)%N] => destruct (N.eqb_spec a b)
         | |- context [(?a <? ?b)%N] => destruct (N.ltb_spec a b)
         | |- context [(?a <=? ?b)%N] => destruct (N.leb_spec a b)
         end;
  cbn [andb orb negb]; try reflexivity; try discriminate; try lia.

(** ** Decimal digits *)

Module DigitFacts.

Lemma digits_fuel_app (f : nat) (n : N) (acc : string) :
  Std.digits_fuel f n acc = Std.digits_fuel f n EmptyString ++ acc.
Proof.
  revert n acc. induction f as [| f IH]; intros n acc; cbn [Std.digits_fuel];
    [reflexivity |].
  destruct (n <? 10); [reflexivity |].
  rewrite IH, (IH _ (String _ EmptyString)), string_app_assoc. reflexivity.
Qed.

Lemma digits_value_app (a b : string) (acc : N) :
  Json.digits_value (a ++ b) acc = Json.digits_value b (Json.digits_value a acc).
Proof. revert acc. induction a as [| x a IH]; intros acc; cbn; auto. Qed.

Lemma digit_code (d : N) : d < 10 -> code (chr (48 + d)) = 48 + d.
Proof. intros H. apply code_chr. lia. Qed.

Lemma digits_fuel_value (f : nat) (n : N) :
  n < 2 ^ N.of_nat f ->
  Json.digits_value (Std.digits_fuel f n EmptyString) 0 = n.
Proof.
  revert n. induction f as [| f IH]; intros n Hn.
  - cbn in *. lia.
  - cbn [Std.digits_fuel].
    assert (Hd : n mod 10 < 10) by (apply N.mod_lt; lia).
    destruct (N.ltb_spec n 10) as [Hs | Hs].
    + cbn [Json.digits_value]. rewrite digit_code by assumption.
      rewrite N.mod_small by assumption. clear. lia.
    + rewrite digits_fuel_app, digits_value_app, IH.
      * cbn [Json.digits_value]. rewrite digit_code by assumption.
        clear. nlia.
      * rewrite Nat2N.inj_succ, N.pow_succ_r' in Hn.
        revert Hn. generalize (2 ^ N.of_nat f). clear. intros. nlia.
Qed.

Lemma digits_value (n : N) : Json.digits_value (Std.digits n) 0 = n.
Proof.
  apply digits_fuel_value. rewrite Nat2N.inj_succ, N2Nat.id, N.pow_succ_r'.
  pose proof (N.size_gt n). lia.
Qed.

Lemma all_digits_app (a b : string) :
  Json.all_digits (a ++ b) = Json.all_digits a && Json.all_digits b.
Proof.
  induction a as [| x a IH]; cbn; [reflexivity | now rewrite IH, andb_assoc].
Qed.

Lemma is_digit_chr (d : N) : d < 10 -> Json.is_digit (chr (48 + d)) = true.
Proof. intros H. unfold Json.is_digit. rewrite digit_code by assumption. codes. Qed.

Lemma digits_fuel_all_digits (f : nat) (n : N) :
  Json.all_digits (Std.digits_fuel f n EmptyString) = true.
Proof.
  revert n. induction f as [| f IH]; intros n; cbn [Std.digits_fuel]; [reflexivity |].
  assert (Hd : n mod 10 < 10) by (apply N.mod_lt; lia).
  destruct (n <? 10).
  - cbn [Json.all_digits]. now rewrite is_digit_chr.
  - rewrite digits_fuel_app, all_digits_app, IH. cbn [Json.all_digits andb].
    now rewrite is_digit_chr.
Qed.

(** The text of a positive number starts with a digit other than zero. *)
Lemma digits_fuel_nonzero (f : nat) (n : N) :
  0 < n -> n < 2 ^ N.of_nat f ->
  exists c r, Std.digits_fuel f n EmptyString = String c r /\ code c <> 48.
Proof.
  revert n. induction f as [| f IH]; intros n Hp Hn.
  - cbn in Hn. lia.
  - cbn [Std.digits_fuel].
    assert (Hd : n mod 10 < 10) by (apply N.mod_lt; lia).
    destruct (N.ltb_spec n 10) as [Hs | Hs].
    + eexists _, _. split; [reflexivity |].
      rewrite digit_code by assumption. rewrite N.mod_small by assumption. lia.
    + rewrite digits_fuel_app.
      destruct (IH (n / 10)) as (c & r & E & Hc).
      * apply N.div_str_pos. lia.
      * rewrite Nat2N.inj_succ, N.pow_succ_r' in Hn.
        revert Hn. generalize (2 ^ N.of_nat f). clear. intros. nlia.
      * rewrite E. cbn [append]. eauto.
Qed.

Lemma digits_nonzero (n : N) :
  0 < n -> exists c r, Std.digits n = String c r /\ code c <> 48.
Proof.
  intros Hp. apply digits_fuel_nonzero; [assumption |].
  rewrite Nat2N.inj_succ, N2Nat.id, N.pow_succ_r'.
  pose proof (N.size_gt n). lia.
Qed.

Lemma digits_all_digits (n : N) : Json.all_digits (Std.digits n) = true.
Proof. apply digits_fuel_all_digits. Qed.

End DigitFacts.

(** ** Number texts *)

Section NumberFacts.
Context {D : Json.Double}.
Import Json.

Lemma span_digits_inv (s d r : string) :
  span_digits s = (d, r) ->
  s = d ++ r /\ all_digits d = true /\ not_digit_start r = true.
Proof.
  revert d r. induction s as [| c s IH]; intros d r; cbn [span_digits].
  - intros H. injection H as <- <-. auto.
  - destruct (is_digit c) eqn:Ec.
    + destruct (span_digits s) as [d' r'] eqn:E. intros H. injection H as <- <-.
      destruct (IH _ _ eq_refl) as (-> & Hd & Hr).
      cbn [all_digits append]. rewrite Ec, Hd. auto.
    + intros H. injection H as <- <-. cbn. rewrite Ec. auto.
Qed.

Lemma span_digits_all (d rest : string) :
  all_digits d = true -> not_digit_start rest = true ->
  span_digits (d ++ rest) = (d, rest).
Proof.
  intros Hd Hr. induction d as [| c d IH]; cbn [append].
  - destruct rest as [| c r]; cbn in *; [reflexivity |].
    now rewrite (proj1 (negb_true_iff _) Hr).
  - cbn [all_digits] in Hd. apply andb_true_iff in Hd as [Hc Hd].
    cbn [span_digits]. now rewrite Hc, IH.
Qed.

Lemma not_digit_start_app (r rest : string) :
  not_digit_start r = true -> (r = EmptyString -> not_digit_start rest = true) ->
  not_digit_start (r ++ rest) = true.
Proof. destruct r; cbn; auto. Qed.

Lemma span_digits_app (s d r rest : string) :
  span_digits s = (d, r) ->
  (r = EmptyString -> not_digit_start rest = true) ->
  span_digits (s ++ rest) = (d, r ++ rest).
Proof.
  intros H Hr. apply span_digits_inv in H as (-> & Hd & Hn).
  rewrite string_app_assoc. apply span_digits_all; [assumption |].
  now apply not_digit_start_app.
Qed.

Lemma number_end_spec (rest : string) :
  number_end rest = true ->
  not_digit_start rest = true
  /\ match rest with
     | EmptyString => True
     | String c _ => code c <> 46 /\ code c <> 101 /\ code c <> 69
     end.
Proof.
  destruct rest as [| c r]; cbn; [auto |].
  rewrite negb_true_iff, !orb_false_iff, !N.eqb_neq.
  intros (((-> & H1) & H2) & H3). auto.
Qed.

Lemma lex_fraction_app (s fp r rest : string) :
  lex_fraction s = Ok (fp, r) -> number_end rest = true ->
  lex_fraction (s ++ rest) = Ok (fp, r ++ rest).
Proof.
  intros H Hrest. destruct (number_end_spec _ Hrest) as [Hn Hc].
  destruct s as [| c s]; cbn [lex_fraction append] in *.
  - injection H as <- <-. destruct rest as [| c r]; [reflexivity |].
    cbn [lex_fraction append]. destruct Hc as (Hc & _).
    apply N.eqb_neq in Hc. now rewrite Hc.
  - destruct (code c =? 46).
    + destruct (span_digits s) as [d r'] eqn:E.
      rewrite (span_digits_app _ _ _ rest E) by auto.
      destruct d as [| d0 d].
      * destruct r'; discriminate.
      * injection H as <- <-. reflexivity.
    + injection H as <- <-. reflexivity.
Qed.

Lemma lex_exponent_app (s ep r rest : string) :
  lex_exponent s = Ok (ep, r) -> number_end rest = true ->
  lex_exponent (s ++ rest) = Ok (ep, r ++ rest).
Proof.
  intros H Hrest. destruct (number_end_spec _ Hrest) as [Hn Hc].
  destruct s as [| c s]; cbn [lex_exponent append] in *.
  - injection H as <- <-. destruct rest as [| c r]; [reflexivity |].
    cbn [lex_exponent append]. destruct Hc as (_ & Hc1 & Hc2).
    apply N.eqb_neq in Hc1, Hc2. now rewrite Hc1, Hc2.
  - destruct ((code c =? 101) || (code c =? 69)).
    + destruct s as [| g s0].
      * cbn in H. discriminate.
      * cbn [append].
        destruct ((code g =? 43) || (code g =? 45)).
        -- destruct (span_digits s0) as [d r'] eqn:E.
           rewrite (span_digits_app _ _ _ rest E) by auto.
           destruct d as [| d0 d].
           ++ destruct r'; discriminate.
           ++ injection H as <- <-. reflexivity.
        -- destruct (span_digits (String g s0)) as [d r'] eqn:E.
           change (String g (s0 ++ rest)) with (String g s0 ++ rest).
           rewrite (span_digits_app _ _ _ rest E) by auto.
           destruct d as [| d0 d].
           ++ destruct r'; discriminate.
           ++ injection H as <- <-. reflexivity.
    + injection H as <- <-. reflexivity.
Qed.

Lemma number_body_app (neg : bool) (s : string) (v : value) (r rest : string) :
  number_body neg s = Ok (v, r) -> number_end rest = true ->
  number_body neg (s ++ rest) = Ok (v, r ++ rest).
Proof.
  intros H Hrest. destruct (number_end_spec _ Hrest) as [Hn Hc].
  unfold number_body in *.
  destruct (span_digits s) as [ip s2] eqn:E.
  rewrite (span_digits_app _ _ _ rest E) by auto.
  destruct ip as [| d0 ip']; [destruct s; discriminate |].
  destruct ((code d0 =? 48) && negb (String.eqb ip' EmptyString)); [discriminate |].
  destruct (lex_fraction s2) as [[fp s3] | e] eqn:Ef; [| discriminate].
  rewrite (lex_fraction_app _ _ _ rest Ef Hrest).
  destruct (lex_exponent s3) as [[ep s4] | e] eqn:Ee; [| discriminate].
  rewrite (lex_exponent_app _ _ _ rest Ee Hrest).
  destruct fp, ep; injection H as <- <-; reflexivity.
Qed.

(** A number text reads the same whatever follows it, as long as what
    follows cannot continue a number. *)
Lemma parse_number_app (s : string) (v : value) (r rest : string) :
  parse_number s = Ok (v, r) -> number_end rest = true ->
  parse_number (s ++ rest) = Ok (v, r ++ rest).
Proof.
  intros H Hrest. destruct s as [| c s]; [discriminate |].
  cbn [append parse_number] in *. destruct (code c =? 45).
  - now apply number_body_app.
  - change (String c (s ++ rest)) with (String c s ++ rest).
    now apply number_body_app.
Qed.

Lemma lex_fraction_inv (s fp r : string) :
  lex_fraction s = Ok (fp, r) -> s = fp ++ r.
Proof.
  destruct s as [| c s]; cbn [lex_fraction].
  - intros H. now injection H as <- <-.
  - destruct (code c =? 46).
    + destruct (span_digits s) as [d r'] eqn:E.
      apply span_digits_inv in E as (-> & _).
      destruct d; [destruct r'; discriminate |].
      intros H. now injection H as <- <-.
    + intros H. now injection H as <- <-.
Qed.

Lemma lex_exponent_inv (s ep r : string) :
  lex_exponent s = Ok (ep, r) -> s = ep ++ r.
Proof.
  destruct s as [| c s]; cbn [lex_exponent].
  - intros H. now injection H as <- <-.
  - destruct ((code c =? 101) || (code c =? 69)).
    + destruct s as [| g s0]; [discriminate |].
      destruct ((code g =? 43) || (code g =? 45)).
      * destruct (span_digits s0) as [d r'] eqn:E.
        apply span_digits_inv in E as (-> & _).
        destruct d; [destruct r'; discriminate |].
        intros H. now injection H as <- <-.
      * destruct (span_digits (String g s0)) as [d r'] eqn:E.
        apply span_digits_inv in E as (E & _).
        destruct d; [destruct r'; discriminate |].
        intros H. injection H as <- <-. cbn [append]. now rewrite E.
    + intros H. now injection H as <- <-.
Qed.

Lemma integer_value_parsed (neg : bool) (ip : string) (d : nat) :
  parsed d (integer_value neg ip).
Proof.
  unfold integer_value. destruct neg.
  - destruct (N.leb_spec (digits_value ip 0) (2 ^ 63)); constructor. lia.
  - destruct (N.ltb_spec (digits_value ip 0) (2 ^ 63)); [constructor; lia |].
    destruct (N.ltb_spec (digits_value ip 0) (2 ^ 64)); constructor. lia.
Qed.

(** A number text has at least one digit, and the parser gives it a
    value of the kind and range it assigns. *)
Lemma number_body_parsed (neg : bool) (s : string) (v : value) (r : string) (d : nat) :
  number_body neg s = Ok (v, r) ->
  parsed d v /\ (String.length r < String.length s)%nat.
Proof.
  unfold number_body.
  destruct (span_digits s) as [ip s2] eqn:E.
  apply span_digits_inv in E as (-> & _).
  destruct ip as [| d0 ip']; [destruct s2; discriminate |].
  destruct ((code d0 =? 48) && negb (String.eqb ip' EmptyString)); [discriminate |].
  destruct (lex_fraction s2) as [[fp s3] | e] eqn:Ef; [| discriminate].
  apply lex_fraction_inv in Ef as ->.
  destruct (lex_exponent s3) as [[ep s4] | e] eqn:Ee; [| discriminate].
  apply lex_exponent_inv in Ee as ->.
  intros H. split.
  - destruct fp, ep; injection H as <- <-;
      first [apply integer_value_parsed | constructor].
  - assert (r = s4) as -> by (destruct fp, ep; now injection H).
    cbn [append String.length]. rewrite !string_length_app. lia.
Qed.

Lemma parse_number_parsed (s : string) (v : value) (r : string) (d : nat) :
  parse_number s = Ok (v, r) ->
  parsed d v /\ (String.length r < String.length s)%nat.
Proof.
  destruct s as [| c s]; cbn [parse_number]; [discriminate |].
  destruct (code c =? 45); intros H.
  - apply (number_body_parsed _ _ _ _ d) in H as [Hp Hl]. cbn [String.length]. split; [assumption | lia].
  - apply (number_body_parsed _ _ _ _ d) in H. exact H.
Qed.

(** The decimal text of a number reads as that number. *)
Lemma number_body_digits (neg : bool) (n : N) :
  number_body neg (Std.digits n) = Ok (integer_value neg (Std.digits n), EmptyString).
Proof.
  unfold number_body.
  rewrite <- (string_app_nil_r (Std.digits n)) at 1.
  rewrite span_digits_all by (auto using DigitFacts.digits_all_digits).
  destruct (N.eq_dec n 0) as [-> | Hn]; [reflexivity |].
  destruct (DigitFacts.digits_nonzero n) as (c & r & E & Hc); [lia |].
  rewrite E. apply N.eqb_neq in Hc. rewrite Hc. reflexivity.
Qed.

Lemma digits_first_digit (n : N) :
  exists c r, Std.digits n = String c r /\ is_digit c = true.
Proof.
  pose proof (DigitFacts.digits_all_digits n) as H.
  destruct (N.eq_dec n 0) as [-> | Hn]; [eexists _, _; split; reflexivity |].
  destruct (DigitFacts.digits_nonzero n) as (c & r & E & Hc); [lia |].
  rewrite E in H. cbn [all_digits] in H. apply andb_true_iff in H as [H _].
  eauto.
Qed.

Lemma parse_number_digits (n : N) :
  parse_number (Std.digits n) = Ok (integer_value false (Std.digits n), EmptyString).
Proof.
  destruct (digits_first_digit n) as (c & r & E & Hc).
  unfold parse_number. rewrite E.
  assert ((code c =? 45) = false) as ->.
  { unfold is_digit in Hc. apply andb_true_iff in Hc as [H1 H2].
    apply N.leb_le in H1. apply N.eqb_neq. lia. }
  rewrite <- E. apply number_body_digits.
Qed.

Lemma parse_number_int64 (i : Z) :
  (- 2 ^ 63 <= i < 2 ^ 63)%Z ->
  parse_number (Std.to_string i) = Ok (JInt64 i, EmptyString).
Proof.
  intros Hi. destruct i as [| p | p]; cbn [Std.to_string].
  - reflexivity.
  - rewrite parse_number_digits. unfold integer_value.
    rewrite DigitFacts.digits_value. cbn [Z.to_N].
    destruct (N.ltb_spec (N.pos p) (2 ^ 63)); [reflexivity | lia].
  - unfold parse_number. change (code "-" =? 45) with true. cbn iota.
    rewrite number_body_digits. unfold integer_value.
    rewrite DigitFacts.digits_value.
    destruct (N.leb_spec (N.pos p) (2 ^ 63)); [reflexivity | lia].
Qed.

Lemma parse_number_uint64 (u : N) :
  2 ^ 63 <= u < 2 ^ 64 ->
  parse_number (Std.digits u) = Ok (JUInt64 u, EmptyString).
Proof.
  intros Hu. rewrite parse_number_digits. unfold integer_value.
  rewrite DigitFacts.digits_value.
  destruct (N.ltb_spec u (2 ^ 63)); [lia |].
  destruct (N.ltb_spec u (2 ^ 64)); [reflexivity | lia].
Qed.

End NumberFacts.

(** ** String contents *)

Section StringFacts.
Import Json.

Lemma push_inv {A : Type} (piece : string) (r : res (string * A)) (s : string) (rest : A) :
  push piece r = Ok (s, rest) -> exists s', r = Ok (s', rest) /\ s = piece ++ s'.
Proof.
  destruct r as [[s' rest'] | e]; cbn; [| discriminate].
  intros H. injection H as <- <-. eauto.
Qed.

Lemma hex_value_digit (k : N) : k < 16 -> hex_value (hex_digit k) = Some k.
Proof.
  intros Hk. unfold hex_value, hex_digit.
  destruct (N.ltb_spec k 10); rewrite code_chr by lia; codes; f_equal; lia.
Qed.

(** Reading the escape of an ASCII byte gives the byte back. *)
Lemma scan_escape_char (c : ascii) (t : string) :
  code c < 0x80 -> scan (escape_char c ++ t) = push (String c EmptyString) (scan t).
Proof.
  intros Hc. unfold escape_char.
  assert (Hchr : forall n, code c = n -> c = chr n)
    by (intros n <-; symmetry; apply chr_code).
  destruct (N.eqb_spec (code c) 34) as [E | N34]; [rewrite (Hchr _ E); reflexivity |].
  destruct (N.eqb_spec (code c) 92) as [E | N92]; [rewrite (Hchr _ E); reflexivity |].
  destruct (N.eqb_spec (code c) 8) as [E | N8]; [rewrite (Hchr _ E); reflexivity |].
  destruct (N.eqb_spec (code c) 12) as [E | N12]; [rewrite (Hchr _ E); reflexivity |].
  destruct (N.eqb_spec (code c) 10) as [E | N10]; [rewrite (Hchr _ E); reflexivity |].
  destruct (N.eqb_spec (code c) 13) as [E | N13]; [rewrite (Hchr _ E); reflexivity |].
  destruct (N.eqb_spec (code c) 9) as [E | N9]; [rewrite (Hchr _ E); reflexivity |].
  destruct (N.ltb_spec (code c) 32) as [Hlow | Hhigh].
  - cbn [append scan].
    change (code "\" =? 34) with false. change (code "\" =? 92) with true.
    change (code "u" =? 117) with true. cbn iota.
    unfold hex4. change (hex_value "0") with (Some 0).
    rewrite !hex_value_digit by nlia.
    replace (((0 * 16 + 0) * 16 + code c / 16) * 16 + code c mod 16) with (code c)
      by nlia.
    assert ((0xD800 <=? code c) = false) as -> by (apply N.leb_gt; lia).
    assert ((0xDC00 <=? code c) = false) as -> by (apply N.leb_gt; lia).
    cbn [andb]. unfold utf8_encode.
    assert ((code c <? 0x80) = true) as -> by (apply N.ltb_lt; lia).
    now rewrite chr_code.
  - cbn [append scan].
    apply N.eqb_neq in N34, N92. rewrite N34, N92.
    assert ((code c <? 32) = false) as -> by (apply N.ltb_ge; lia).
    assert ((code c <? 128) = true) as -> by (apply N.ltb_lt; lia).
    reflexivity.
Qed.

(** Bytes from 0x80 on are written as they are. *)
Lemma escape_char_high (c : ascii) :
  0x80 <= code c -> escape_char c = String c EmptyString.
Proof. intros H. unfold escape_char. codes. Qed.

Lemma cont_high (c : ascii) : cont c = true -> 0x80 <= code c.
Proof. unfold cont. intros H. apply andb_true_iff in H as [H _]. now apply N.leb_le. Qed.

(** The escaped form of well-formed UTF-8, closed by a quote, reads
    back as the content. *)
Lemma scan_escape (s rest : string) :
  utf8 s -> scan (escape s ++ String dquote rest) = Ok (s, rest).
Proof.
  induction 1 as [| c r Hc Hr IH | c1 c2 r H2 Hr IH | c1 c2 c3 r H3 Hr IH
                  | c1 c2 c3 c4 r H4 Hr IH].
  - reflexivity.
  - cbn [escape]. rewrite string_app_assoc, scan_escape_char by assumption.
    now rewrite IH.
  - unfold utf8_2 in H2. apply andb_true_iff in H2 as [H2 Hc2].
    apply andb_true_iff in H2 as [Hlo Hhi].
    apply N.leb_le in Hlo, Hhi. pose proof (cont_high _ Hc2).
    cbn [escape]. rewrite !escape_char_high by lia.
    cbn [append scan]. rewrite IH.
    assert (utf8_2 c1 c2 = true) as ->.
    { unfold utf8_2. rewrite Hc2. codes. }
    codes.
  - pose proof H3 as H3'. unfold utf8_3 in H3.
    repeat (apply andb_true_iff in H3 as [H3 ?]).
    apply N.leb_le in H3.
    repeat match goal with H : cont _ = true |- _ => apply cont_high in H end.
    match goal with H : (code c1 <=? _) = true |- _ => apply N.leb_le in H end.
    cbn [escape]. rewrite !escape_char_high by lia.
    cbn [append scan]. rewrite IH, H3'. codes.
  - pose proof H4 as H4'. unfold utf8_4 in H4.
    repeat (apply andb_true_iff in H4 as [H4 ?]).
    apply N.leb_le in H4.
    repeat match goal with H : cont _ = true |- _ => apply cont_high in H end.
    match goal with H : (code c1 <=? _) = true |- _ => apply N.leb_le in H end.
    cbn [escape]. rewrite !escape_char_high by lia.
    cbn [append scan]. rewrite IH, H4'. codes.
Qed.

Lemma hex_value_bound (c : ascii) (k : N) : hex_value c = Some k -> k < 16.
Proof.
  unfold hex_value.
  destruct ((48 <=? code c) && (code c <=? 57)) eqn:E1.
  { apply andb_true_iff in E1 as [H1 H2]. apply N.leb_le in H1, H2.
    intros H. injection H as <-. lia. }
  destruct ((97 <=? code c) && (code c <=? 102)) eqn:E2.
  { apply andb_true_iff in E2 as [H1 H2]. apply N.leb_le in H1, H2.
    intros H. injection H as <-. lia. }
  destruct ((65 <=? code c) && (code c <=? 70)) eqn:E3; [| discriminate].
  apply andb_true_iff in E3 as [H1 H2]. apply N.leb_le in H1, H2.
  intros H. injection H as <-. lia.
Qed.

Lemma hex4_bound (a b c d : ascii) (u : N) : hex4 a b c d = Some u -> u < 0x10000.
Proof.
  unfold hex4.
  destruct (hex_value a) as [x |] eqn:Ea; [| discriminate].
  destruct (hex_value b) as [y |] eqn:Eb; [| discriminate].
  destruct (hex_value c) as [z |] eqn:Ec; [| discriminate].
  destruct (hex_value d) as [w |] eqn:Ed; [| discriminate].
  apply hex_value_bound in Ea, Eb, Ec, Ed.
  intros H. injection H as <-. lia.
Qed.

(** The encoding of a code point that is no surrogate is well formed. *)
Lemma utf8_encode_valid (cp : N) (t : string) :
  cp < 0x110000 -> (cp < 0xD800 \/ 0xDFFF < cp) -> utf8 t ->
  utf8 (utf8_encode cp ++ t).
Proof.
  intros Hmax Hsur Ht. unfold utf8_encode.
  destruct (N.ltb_spec cp 0x80) as [H1 | H1].
  { cbn [append]. apply utf8_1; [| assumption]. rewrite code_chr; lia. }
  destruct (N.ltb_spec cp 0x800) as [H2 | H2].
  { cbn [append]. apply utf8_seq2; [| assumption].
    unfold utf8_2, cont. rewrite !code_chr by nlia.
    repeat (apply andb_true_intro; split); apply N.leb_le; nlia. }
  destruct (N.ltb_spec cp 0x10000) as [H3 | H3].
  { cbn [append]. apply utf8_seq3; [| assumption].
    unfold utf8_3, cont. rewrite !code_chr by nlia.
    repeat (apply andb_true_intro; split);
      try (apply N.leb_le; nlia).
    - destruct (N.eqb_spec (0xE0 + cp / 4096) 0xE0); [apply N.leb_le; nlia | reflexivity].
    - destruct (N.eqb_spec (0xE0 + cp / 4096) 0xED); [apply N.leb_le; nlia | reflexivity]. }
  cbn [append]. apply utf8_seq4; [| assumption].
  unfold utf8_4, cont. rewrite !code_chr by nlia.
  repeat (apply andb_true_intro; split);
    try (apply N.leb_le; nlia).
  - destruct (N.eqb_spec (0xF0 + cp / 262144) 0xF0); [apply N.leb_le; nlia | reflexivity].
  - destruct (N.eqb_spec (0xF0 + cp / 262144) 0xF4); [apply N.leb_le; nlia | reflexivity].
Qed.

Lemma unescape_simple_ascii (e b : ascii) : unescape_simple e = Some b -> code b < 0x80.
Proof.
  unfold unescape_simple.
  repeat match goal with
         | |- context [if ?t then _ else _] =>
             destruct t; [intros H; injection H as <-; cbn; lia |]
         end.
  discriminate.
Qed.

(** What the string reader gives is well-formed UTF-8, and the reader
    moves forward. *)
Lemma scan_utf8_bounded (n : nat) (s str rest : string) :
  (String.length s <= n)%nat ->
  scan s = Ok (str, rest) ->
  utf8 str /\ (String.length rest < String.length s)%nat.
Proof.
  revert s str rest. induction n as [| n IH]; intros s str rest Hlen.
  { destruct s; [discriminate | cbn in Hlen; lia]. }
  destruct s as [| c r]; [discriminate |].
  cbn [String.length] in Hlen.
  assert (step : forall piece t,
             (String.length t <= n)%nat ->
             (String.length t <= String.length r)%nat ->
             (forall u, utf8 u -> utf8 (piece ++ u)) ->
             push piece (scan t) = Ok (str, rest) ->
             utf8 str /\ (String.length rest < String.length (String c r))%nat).
  { intros piece t Ht Htr Hpiece H.
    apply push_inv in H as (s' & H & ->).
    apply IH in H as [Hu Hl]; [| assumption].
    split; [now apply Hpiece | cbn [String.length]; lia]. }
  cbn [scan].
  destruct (code c =? 34).
  { intros H. injection H as <- <-. split; [constructor | cbn; lia]. }
  destruct (code c =? 92).
  { destruct r as [| e r1]; [discriminate |].
    cbn [String.length] in *.
    destruct (code e =? 117).
    - destruct r1 as [| h1 [| h2 [| h3 [| h4 r2]]]]; try discriminate.
      cbn [String.length] in *.
      destruct (hex4 h1 h2 h3 h4) as [u1 |] eqn:E1; [| discriminate].
      pose proof (hex4_bound _ _ _ _ _ E1) as B1.
      destruct ((0xD800 <=? u1) && (u1 <=? 0xDBFF)) eqn:Elead.
      + destruct r2 as [| b [| u [| l1 [| l2 [| l3 [| l4 r3]]]]]]; try discriminate.
        cbn [String.length] in *.
        destruct ((code b =? 92) && (code u =? 117)); [| discriminate].
        destruct (hex4 l1 l2 l3 l4) as [u2 |] eqn:E2; [| discriminate].
        destruct ((0xDC00 <=? u2) && (u2 <=? 0xDFFF)) eqn:Etrail; [| discriminate].
        apply andb_true_iff in Elead as [L1 L2], Etrail as [T1 T2].
        apply N.leb_le in L1, L2, T1, T2.
        apply step; try lia.
        intros t Ht. apply utf8_encode_valid; [lia | right; lia | assumption].
      + destruct ((0xDC00 <=? u1) && (u1 <=? 0xDFFF)) eqn:Etrail; [discriminate |].
        apply step; try lia.
        intros t Ht. apply utf8_encode_valid; [lia | | assumption].
        apply andb_false_iff in Elead, Etrail.
        rewrite !N.leb_gt in Elead, Etrail. lia.
    - destruct (unescape_simple e) as [b |] eqn:Eb; [| discriminate].
      apply step; try lia.
      intros t Ht. cbn [append]. apply utf8_1; [| assumption].
      now apply unescape_simple_ascii in Eb. }
  destruct (code c <? 32); [discriminate |].
  destruct (N.ltb_spec (code c) 128).
  { apply step; try lia. intros t Ht. now apply utf8_1. }
  destruct (code c <? 224).
  { destruct r as [| c2 r1]; [discriminate |]. cbn [String.length] in *.
    destruct (utf8_2 c c2) eqn:E; [| discriminate].
    apply step; try lia. intros t Ht. now apply utf8_seq2. }
  destruct (code c <? 240).
  { destruct r as [| c2 [| c3 r1]]; try discriminate. cbn [String.length] in *.
    destruct (utf8_3 c c2 c3) eqn:E; [| discriminate].
    apply step; try lia. intros t Ht. now apply utf8_seq3. }
  destruct r as [| c2 [| c3 [| c4 r1]]]; try discriminate. cbn [String.length] in *.
  destruct (utf8_4 c c2 c3 c4) eqn:E; [| discriminate].
  apply step; try lia. intros t Ht. now apply utf8_seq4.
Qed.

Lemma scan_utf8 (s str rest : string) :
  scan s = Ok (str, rest) ->
  utf8 str /\ (String.length rest < String.length s)%nat.
Proof. apply (scan_utf8_bounded (String.length s)). lia. Qed.

End StringFacts.

(** ** Values *)

Section ValueFacts.
Context {D : Json.Double}.
Import Json.

(** Induction on values, with the elements of arrays and the members of
    objects covered. *)
Lemma value_induction (P : value -> Prop) :
  P JNull ->
  (forall b, P (JBool b)) ->
  (forall i, P (JInt64 i)) ->
  (forall u, P (JUInt64 u)) ->
  (forall d, P (JDouble d)) ->
  (forall s, P (JString s)) ->
  (forall l, Forall P l -> P (JArray l)) ->
  (forall ms, Forall (fun kv => P (snd kv)) ms -> P (JObject ms)) ->
  forall v, P v.
Proof.
  intros Hnull Hbool Hint Huint Hdouble Hstring Harray Hobject.
  fix rec 1. intros [| b | i | u | d | s | l | ms].
  - exact Hnull.
  - apply Hbool.
  - apply Hint.
  - apply Huint.
  - apply Hdouble.
  - apply Hstring.
  - apply Harray. induction l as [| x l IH]; constructor; [apply rec | exact IH].
  - apply Hobject. induction ms as [| [k x] ms IH]; constructor; [apply rec | exact IH].
Qed.

(** *** Objects *)

Lemma object_set_forall (Q : string * value -> Prop) (o : list (string * value))
      (k : string) (v : value) :
  Forall Q o -> Q (k, v) -> Forall Q (object_set o k v).
Proof.
  intros Ho Hkv. induction Ho as [| [k' v'] o Hx Ho IH]; cbn [object_set].
  - auto.
  - destruct (String.eqb k k'); constructor; auto.
Qed.

Lemma object_set_keys (o : list (string * value)) (k : string) (v : value) :
  List.map fst (object_set o k v)
  = if existsb (String.eqb k) (List.map fst o) then List.map fst o
    else (List.map fst o ++ [k])%list.
Proof.
  induction o as [| [k' v'] o IH]; cbn [object_set List.map existsb fst]; [reflexivity |].
  destruct (String.eqb_spec k k') as [-> | Hne]; cbn [orb List.map fst]; [reflexivity |].
  rewrite IH. destruct (existsb (String.eqb k) (List.map fst o)); reflexivity.
Qed.

Lemma existsb_eqb_in (k : string) (l : list string) :
  existsb (String.eqb k) l = true <-> In k l.
Proof.
  rewrite existsb_exists. split.
  - intros (x & Hx & E). apply String.eqb_eq in E. now subst.
  - intros H. exists k. split; [assumption | apply String.eqb_refl].
Qed.

Lemma object_set_nodup (o : list (string * value)) (k : string) (v : value) :
  NoDup (List.map fst o) -> NoDup (List.map fst (object_set o k v)).
Proof.
  intros H. rewrite object_set_keys.
  destruct (existsb (String.eqb k) (List.map fst o)) eqn:E; [assumption |].
  apply NoDup_app; [assumption | repeat constructor; intros [] | ].
  intros x Hx [<- | []].
  apply existsb_eqb_in in Hx. congruence.
Qed.

Lemma object_set_fresh (o : list (string * value)) (k : string) (v : value) :
  ~ In k (List.map fst o) -> object_set o k v = (o ++ [(k, v)])%list.
Proof.
  induction o as [| [k' v'] o IH]; cbn [object_set List.map fst In app]; [reflexivity |].
  intros H. destruct (String.eqb_spec k k') as [-> | Hne]; [tauto |].
  rewrite IH by tauto. reflexivity.
Qed.

Lemma fold_object_set_forall (Q : string * value -> Prop)
      (ms acc : list (string * value)) :
  Forall Q ms -> Forall Q acc ->
  Forall Q (fold_left (fun o kv => object_set o (fst kv) (snd kv)) ms acc).
Proof.
  intros Hms. revert acc. induction Hms as [| [k v] ms Hx Hms IH]; intros acc Hacc; cbn.
  - assumption.
  - apply IH. now apply object_set_forall.
Qed.

Lemma fold_object_set_nodup (ms acc : list (string * value)) :
  NoDup (List.map fst acc) ->
  NoDup (List.map fst (fold_left (fun o kv => object_set o (fst kv) (snd kv)) ms acc)).
Proof.
  revert acc. induction ms as [| [k v] ms IH]; intros acc Hacc; cbn.
  - assumption.
  - apply IH. now apply object_set_nodup.
Qed.

Lemma fold_object_set_fresh (ms acc : list (string * value)) :
  NoDup (List.map fst (acc ++ ms)) ->
  fold_left (fun o kv => object_set o (fst kv) (snd kv)) ms acc = (acc ++ ms)%list.
Proof.
  revert acc. induction ms as [| [k v] ms IH]; intros acc H; cbn [fold_left fst snd].
  - now rewrite app_nil_r.
  - rewrite object_set_fresh.
    + rewrite IH; rewrite <- app_assoc; [reflexivity | exact H].
    + rewrite List.map_app in H. cbn in H. apply NoDup_remove_2 in H.
      intros Hin. apply H. apply in_or_app. now left.
Qed.

(** Members without a repeated key are kept as read. *)
Lemma object_of_nodup (ms : list (string * value)) :
  NoDup (List.map fst ms) -> object_of ms = ms.
Proof. intros H. unfold object_of. now rewrite fold_object_set_fresh. Qed.

(** *** White space and keywords *)

Lemma skip_ws_length (s : string) : (String.length (skip_ws s) <= String.length s)%nat.
Proof.
  induction s as [| c s IH]; cbn [skip_ws]; [lia |].
  destruct (is_ws c); cbn [String.length]; lia.
Qed.

Lemma skip_ws_id (c : ascii) (s : string) :
  is_ws c = false -> skip_ws (String c s) = String c s.
Proof. intros H. cbn [skip_ws]. now rewrite H. Qed.

Lemma expect_inv (lit s rest : string) : expect lit s = Ok rest -> s = lit ++ rest.
Proof.
  revert s. induction lit as [| a lit IH]; intros s; cbn [expect append].
  - intros H. now injection H as <-.
  - destruct s as [| b s]; [discriminate |].
    destruct (Ascii.eqb_spec a b) as [-> | Hne]; [| discriminate].
    intros H. now rewrite (IH _ H).
Qed.

Lemma keyword_inv (lit : string) (v0 : value) (s : string) (v : value) (r : string) :
  keyword lit v0 s = Ok (v, r) -> v = v0 /\ s = lit ++ r.
Proof.
  unfold keyword. destruct (expect lit s) as [rest | e] eqn:E; [| discriminate].
  intros H. injection H as <- <-. split; [reflexivity | now apply expect_inv].
Qed.

(** *** What the parser produces *)

(** Every value the parser gives has the form the parser assigns, within
    the levels allowed, and the parser consumes at least one byte. *)
Lemma parse_sound (fuel : nat) :
  (forall d s v r, parse_value fuel d s = Some (Ok (v, r)) ->
                   parsed d v /\ (String.length r < String.length s)%nat)
  /\ (forall d s l r, parse_elements fuel d s = Some (Ok (l, r)) ->
                      Forall (parsed d) l /\ (String.length r < String.length s)%nat)
  /\ (forall d s ms r, parse_members fuel d s = Some (Ok (ms, r)) ->
                       members_parsed d ms /\ (String.length r < String.length s)%nat).
Proof.
  induction fuel as [| f (IHv & IHe & IHm)]; [repeat split; discriminate |].
  split; [| split].
  - intros d s v r. cbn [parse_value].
    destruct s as [| c s0]; [discriminate |].
    destruct (code c =? 91).
    { destruct d as [| d']; [discriminate |].
      pose proof (skip_ws_length s0) as Hws.
      destruct (skip_ws s0) as [| c' r'] eqn:Es; [discriminate |].
      destruct (code c' =? 93).
      - intros H. injection H as <- <-. split; [repeat constructor |].
        cbn [String.length] in *. lia.
      - destruct (parse_elements f d' (String c' r')) as [[[l rest] | e] |] eqn:E;
          try discriminate.
        intros H. injection H as <- <-. apply IHe in E as [Hl Hlen].
        split; [now constructor |]. cbn [String.length] in *. lia. }
    destruct (code c =? 123).
    { destruct d as [| d']; [discriminate |].
      pose proof (skip_ws_length s0) as Hws.
      destruct (skip_ws s0) as [| c' r'] eqn:Es; [discriminate |].
      destruct (code c' =? 125).
      - intros H. injection H as <- <-. split; [repeat constructor |].
        cbn [String.length] in *. lia.
      - destruct (parse_members f d' (String c' r')) as [[[ms rest] | e] |] eqn:E;
          try discriminate.
        intros H. injection H as <- <-. apply IHm in E as [Hms Hlen].
        split.
        + constructor.
          * unfold object_of. apply fold_object_set_forall; [exact Hms | constructor].
          * unfold object_of. apply fold_object_set_nodup. constructor.
        + cbn [String.length] in *. lia. }
    destruct (code c =? 34).
    { destruct (scan s0) as [[str rest] | e] eqn:E; [| discriminate].
      intros H. injection H as <- <-. apply scan_utf8 in E as [Hu Hlen].
      split; [now constructor | cbn [String.length]; lia]. }
    destruct (code c =? 110).
    { intros H. injection H as H. apply keyword_inv in H as [-> ->].
      split; [constructor | cbn [String.length append]; lia]. }
    destruct (code c =? 116).
    { intros H. injection H as H. apply keyword_inv in H as [-> ->].
      split; [constructor | cbn [String.length append]; lia]. }
    destruct (code c =? 102).
    { intros H. injection H as H. apply keyword_inv in H as [-> ->].
      split; [constructor | cbn [String.length append]; lia]. }
    destruct ((code c =? 45) || is_digit c); [| discriminate].
    intros H. injection H as H. now apply parse_number_parsed.
  - intros d s l r. cbn [parse_elements].
    destruct (parse_value f d s) as [[[v r0] | e] |] eqn:E; try discriminate.
    apply IHv in E as [Hv Hlen].
    pose proof (skip_ws_length r0) as Hws.
    destruct (skip_ws r0) as [| c r'] eqn:Es; [discriminate |].
    destruct (code c =? 44).
    + pose proof (skip_ws_length r') as Hws'.
      destruct (parse_elements f d (skip_ws r')) as [[[vs rest] | e] |] eqn:E';
        try discriminate.
      intros H. injection H as <- <-. apply IHe in E' as [Hvs Hlen'].
      split; [now constructor |]. cbn [String.length] in *. lia.
    + destruct (code c =? 93); [| discriminate].
      intros H. injection H as <- <-.
      split; [now repeat constructor |]. cbn [String.length] in *. lia.
  - intros d s ms r. cbn [parse_members].
    destruct s as [| c s0]; [discriminate |].
    destruct (code c =? 34); [| discriminate].
    destruct (scan s0) as [[k r1] | e] eqn:Ek; [| discriminate].
    apply scan_utf8 in Ek as [Hk Hlen1].
    pose proof (skip_ws_length r1) as Hws1.
    destruct (skip_ws r1) as [| c1 r2] eqn:Es1; [discriminate |].
    destruct (code c1 =? 58); [| discriminate].
    pose proof (skip_ws_length r2) as Hws2.
    destruct (parse_value f d (skip_ws r2)) as [[[v r3] | e] |] eqn:E; try discriminate.
    apply IHv in E as [Hv Hlen3].
    pose proof (skip_ws_length r3) as Hws3.
    destruct (skip_ws r3) as [| c3 r4] eqn:Es3; [discriminate |].
    destruct (code c3 =? 44).
    + pose proof (skip_ws_length r4) as Hws4.
      destruct (parse_members f d (skip_ws r4)) as [[[ms' rest] | e] |] eqn:E';
        try discriminate.
      intros H. injection H as <- <-. apply IHm in E' as [Hms Hlen'].
      split; [constructor; [split |]; assumption |].
      cbn [String.length] in *. lia.
    + destruct (code c3 =? 125); [| discriminate].
      intros H. injection H as <- <-.
      split; [repeat constructor; assumption |].
      cbn [String.length] in *. lia.
Qed.


(** *** Fuel *)

(** More fuel does not change a result. *)
Lemma parse_fuel_step (fuel : nat) :
  (forall d s r, parse_value fuel d s = Some r -> parse_value (S fuel) d s = Some r)
  /\ (forall d s r, parse_elements fuel d s = Some r ->
                    parse_elements (S fuel) d s = Some r)
  /\ (forall d s r, parse_members fuel d s = Some r ->
                    parse_members (S fuel) d s = Some r).
Proof.
  induction fuel as [| f (IHv & IHe & IHm)]; [repeat split; discriminate |].
  split; [| split].
  - intros d s r H.
    cbn [parse_value] in H. cbn [parse_value].
    destruct s as [| c s0]; [exact H |].
    destruct (code c =? 91).
    { destruct d as [| d']; [exact H |].
      destruct (skip_ws s0) as [| c' r']; [exact H |].
      destruct (code c' =? 93); [exact H |].
      destruct (parse_elements f d' (String c' r')) as [x |] eqn:E; [| discriminate].
      now rewrite (IHe _ _ _ E). }
    destruct (code c =? 123).
    { destruct d as [| d']; [exact H |].
      destruct (skip_ws s0) as [| c' r']; [exact H |].
      destruct (code c' =? 125); [exact H |].
      destruct (parse_members f d' (String c' r')) as [x |] eqn:E; [| discriminate].
      now rewrite (IHm _ _ _ E). }
    exact H.
  - intros d s r H.
    cbn [parse_elements] in H.
    remember (S f) as f1 eqn:Ef1. cbn [parse_elements]. subst f1.
    destruct (parse_value f d s) as [x |] eqn:E; [| discriminate].
    rewrite (IHv _ _ _ E).
    destruct x as [[v r0] | e]; [| exact H].
    destruct (skip_ws r0) as [| c r']; [exact H |].
    destruct (code c =? 44); [| exact H].
    destruct (parse_elements f d (skip_ws r')) as [x |] eqn:E'; [| discriminate].
    now rewrite (IHe _ _ _ E').
  - intros d s r H.
    cbn [parse_members] in H.
    remember (S f) as f1 eqn:Ef1. cbn [parse_members]. subst f1.
    destruct s as [| c s0]; [exact H |].
    destruct (code c =? 34); [| exact H].
    destruct (scan s0) as [[k r1] | e]; [| exact H].
    destruct (skip_ws r1) as [| c1 r2]; [exact H |].
    destruct (code c1 =? 58); [| exact H].
    destruct (parse_value f d (skip_ws r2)) as [x |] eqn:E; [| discriminate].
    rewrite (IHv _ _ _ E).
    destruct x as [[v r3] | e]; [| exact H].
    destruct (skip_ws r3) as [| c3 r4]; [exact H |].
    destruct (code c3 =? 44); [| exact H].
    destruct (parse_members f d (skip_ws r4)) as [x |] eqn:E'; [| discriminate].
    now rewrite (IHm _ _ _ E').
Qed.

Lemma parse_value_fuel_mono (f f' : nat) (d : nat) (s : string)
      (r : res (value * string)) :
  (f <= f')%nat -> parse_value f d s = Some r -> parse_value f' d s = Some r.
Proof.
  induction 1 as [| f' Hle IH]; [auto |].
  intros H. now apply parse_fuel_step, IH.
Qed.

(** Fuel of twice the length of the input, and one more, is enough. *)
Lemma parse_fuel_enough (fuel : nat) :
  (forall d s, (2 * String.length s + 1 <= fuel)%nat ->
               exists r, parse_value fuel d s = Some r)
  /\ (forall d s, (2 * String.length s + 2 <= fuel)%nat ->
                  exists r, parse_elements fuel d s = Some r)
  /\ (forall d s, (2 * String.length s + 2 <= fuel)%nat ->
                  exists r, parse_members fuel d s = Some r).
Proof.
  induction fuel as [| f (IHv & IHe & IHm)]; [repeat split; intros; lia |].
  split; [| split].
  - intros d s Hf. cbn [parse_value].
    destruct s as [| c s0]; [eauto |].
    cbn [String.length] in Hf.
    destruct (code c =? 91).
    { destruct d as [| d']; [eauto |].
      pose proof (skip_ws_length s0) as Hws.
      destruct (skip_ws s0) as [| c' r']; [eauto |].
      destruct (code c' =? 93); [eauto |].
      destruct (IHe d' (String c' r')) as [x E]; [lia |].
      rewrite E. destruct x as [[l rest] | e]; eauto. }
    destruct (code c =? 123).
    { destruct d as [| d']; [eauto |].
      pose proof (skip_ws_length s0) as Hws.
      destruct (skip_ws s0) as [| c' r']; [eauto |].
      destruct (code c' =? 125); [eauto |].
      destruct (IHm d' (String c' r')) as [x E]; [lia |].
      rewrite E. destruct x as [[l rest] | e]; eauto. }
    destruct (code c =? 34); [destruct (scan s0) as [[? ?] | ?]; eauto |].
    destruct (code c =? 110); [eauto |].
    destruct (code c =? 116); [eauto |].
    destruct (code c =? 102); [eauto |].
    destruct ((code c =? 45) || is_digit c); eauto.
  - intros d s Hf. cbn [parse_elements].
    destruct (IHv d s) as [x E]; [lia |]. rewrite E.
    destruct x as [[v r0] | e]; [| eauto].
    apply (proj1 (parse_sound f)) in E as [_ Hlen].
    pose proof (skip_ws_length r0) as Hws.
    destruct (skip_ws r0) as [| c r']; [eauto |].
    destruct (code c =? 44); [| destruct (code c =? 93); eauto].
    pose proof (skip_ws_length r') as Hws'. cbn [String.length] in Hws.
    destruct (IHe d (skip_ws r')) as [x E']; [lia |].
    rewrite E'. destruct x as [[vs rest] | e]; eauto.
  - intros d s Hf. cbn [parse_members].
    destruct s as [| c s0]; [eauto |].
    cbn [String.length] in Hf.
    destruct (code c =? 34); [| eauto].
    destruct (scan s0) as [[k r1] | e] eqn:Ek; [| eauto].
    apply scan_utf8 in Ek as [_ Hlen1].
    pose proof (skip_ws_length r1) as Hws1.
    destruct (skip_ws r1) as [| c1 r2]; [eauto |].
    destruct (code c1 =? 58); [| eauto].
    pose proof (skip_ws_length r2) as Hws2. cbn [String.length] in Hws1.
    destruct (IHv d (skip_ws r2)) as [x E]; [lia |]. rewrite E.
    destruct x as [[v r3] | e]; [| eauto].
    apply (proj1 (parse_sound f)) in E as [_ Hlen3].
    pose proof (skip_ws_length r3) as Hws3.
    destruct (skip_ws r3) as [| c3 r4]; [eauto |].
    destruct (code c3 =? 44); [| destruct (code c3 =? 125); eauto].
    pose proof (skip_ws_length r4) as Hws4. cbn [String.length] in Hws3.
    destruct (IHm d (skip_ws r4)) as [x E']; [lia |].
    rewrite E'. destruct x as [[ms rest] | e]; eauto.
Qed.


(** *** Reading back what the serializer writes *)

(** A number text starts with a minus sign or a digit. *)
Lemma parse_number_head (s : string) (v : value) (r : string) :
  parse_number s = Ok (v, r) ->
  exists c t, s = String c t /\ (code c = 45 \/ is_digit c = true).
Proof.
  destruct s as [| c t]; [discriminate |].
  intros H. exists c, t. split; [reflexivity |].
  cbn [parse_number] in H.
  destruct (N.eqb_spec (code c) 45) as [E | E]; [now left |]. right.
  unfold number_body in H. cbn [span_digits] in H.
  destruct (is_digit c); [reflexivity | discriminate].
Qed.

Lemma number_head_codes (c : ascii) :
  code c = 45 \/ is_digit c = true ->
  is_ws c = false /\ code c <> 93 /\ code c <> 125 /\ code c <> 91
  /\ code c <> 123 /\ code c <> 34 /\ code c <> 110 /\ code c <> 116
  /\ code c <> 102.
Proof.
  unfold is_digit, is_ws. intros [E | E].
  - rewrite E. repeat split; cbn; lia.
  - apply andb_true_iff in E as [H1 H2]. apply N.leb_le in H1, H2.
    repeat split; try lia. codes.
Qed.

(** The parser reads a number text where a value is expected. *)
Lemma parse_value_number (f d : nat) (s : string) (v : value) (r : string) :
  parse_number s = Ok (v, r) -> parse_value (S f) d s = Some (Ok (v, r)).
Proof.
  intros H. destruct (parse_number_head _ _ _ H) as (c & t & -> & Hc).
  pose proof (number_head_codes c Hc) as (_ & _ & _ & H91 & H123 & H34 & H110 & H116 & H102).
  cbn [parse_value].
  apply N.eqb_neq in H91, H123, H34, H110, H116, H102.
  rewrite H91, H123, H34, H110, H116, H102.
  assert ((code c =? 45) || is_digit c = true) as ->.
  { destruct Hc as [-> | ->]; [reflexivity | apply orb_true_r]. }
  now rewrite H.
Qed.

Lemma opens_app (s rest : string) : opens s -> opens (s ++ rest).
Proof. intros (c & t & -> & H). exists c, (t ++ rest). now split. Qed.

Lemma opens_skip_ws (s : string) : opens s -> skip_ws s = s.
Proof. intros (c & t & -> & H & _). now apply skip_ws_id. Qed.

Lemma number_opens (s : string) (v : value) (r : string) :
  parse_number s = Ok (v, r) -> opens s.
Proof.
  intros H. destruct (parse_number_head _ _ _ H) as (c & t & -> & Hc).
  pose proof (number_head_codes c Hc) as (H1 & H2 & H3 & _). exists c, t. auto.
Qed.

Lemma serialize_opens (v : value) (d : nat) :
  parsed d v -> Forall reparses (doubles_of v) -> opens (serialize v).
Proof.
  intros Hp Hd. destruct v as [| [|] | i | u | x | s | l | ms]; cbn [serialize].
  - eexists _, _. split; [reflexivity | repeat split; cbn; discriminate].
  - eexists _, _. split; [reflexivity | repeat split; cbn; discriminate].
  - eexists _, _. split; [reflexivity | repeat split; cbn; discriminate].
  - inversion Hp; subst. eapply number_opens. now apply parse_number_int64.
  - inversion Hp; subst. eapply number_opens. now apply parse_number_uint64.
  - cbn in Hd. inversion Hd; subst. eapply number_opens. eassumption.
  - eexists _, _. split; [reflexivity | repeat split; cbn; discriminate].
  - eexists _, _. split; [reflexivity | repeat split; cbn; discriminate].
  - eexists _, _. split; [reflexivity | repeat split; cbn; discriminate].
Qed.

Lemma closing_number_end (c : ascii) (rest : string) :
  code c = 44 \/ code c = 93 \/ code c = 125 -> number_end (String c rest) = true.
Proof.
  intros H. cbn [number_end]. unfold is_digit.
  apply negb_true_iff. codes.
Qed.

Lemma reads_back_elements (l : list value) :
  Forall reads_back l -> l <> [] ->
  forall d rest,
    Forall (parsed d) l -> Forall reparses (flat_map doubles_of l) ->
    exists f0, forall f, (f0 <= f)%nat ->
      parse_elements f d (join (List.map serialize l) ++ String "]" rest)
      = Some (Ok (l, rest)).
Proof.
  induction 1 as [| x l Hx Hl IH]; [congruence |].
  intros _ d rest Hp Hd.
  inversion Hp as [| ? ? Hpx Hpl]; subst.
  cbn [flat_map] in Hd. apply Forall_app in Hd as [Hdx Hdl].
  destruct l as [| y l'].
  - destruct (Hx d (String "]" rest) Hpx Hdx) as [fx Hfx].
    { apply closing_number_end. cbn. auto. }
    exists (S fx). intros f Hf. destruct f as [| f]; [lia |].
    cbn [List.map join parse_elements]. rewrite Hfx by lia. reflexivity.
  - destruct (IH ltac:(discriminate) d rest Hpl Hdl) as [fl Hfl].
    destruct (Hx d (String "," (join (List.map serialize (y :: l')) ++ String "]" rest))
                Hpx Hdx) as [fx Hfx].
    { apply closing_number_end. cbn. auto. }
    exists (S (Nat.max fx fl)). intros f Hf. destruct f as [| f]; [lia |].
    change (join (List.map serialize (x :: y :: l')))
      with (serialize x ++ "," ++ join (List.map serialize (y :: l'))).
    rewrite !string_app_assoc. cbn [parse_elements].
    change ("," ++ join (List.map serialize (y :: l')) ++ String "]" rest)
      with (String "," (join (List.map serialize (y :: l')) ++ String "]" rest)).
    rewrite Hfx by lia. cbn [skip_ws]. change (is_ws ",") with false. cbn iota.
    change (code "," =? 44) with true. cbn iota.
    rewrite opens_skip_ws.
    + rewrite Hfl by lia. reflexivity.
    + inversion Hpl; subst. apply Forall_app in Hdl as [Hdy _]. cbn [flat_map] in *.
      destruct l'; cbn [List.map join];
        [apply opens_app | rewrite string_app_assoc; apply opens_app];
        eapply serialize_opens; eassumption.
Qed.

Lemma member_text_app (k : string) (x : value) (rest : string) :
  member_text (k, x) ++ rest
  = String dquote (escape k ++ String dquote (String ":" (serialize x ++ rest))).
Proof.
  unfold member_text, serialize_string. cbn [fst snd append].
  now rewrite !string_app_assoc.
Qed.

Lemma reads_back_members (ms : list (string * value)) :
  Forall (fun kv => reads_back (snd kv)) ms -> ms <> [] ->
  forall d rest,
    members_parsed d ms ->
    Forall reparses (flat_map (fun kv => doubles_of (snd kv)) ms) ->
    exists f0, forall f, (f0 <= f)%nat ->
      parse_members f d (join (List.map member_text ms) ++ String "}" rest)
      = Some (Ok (ms, rest)).
Proof.
  induction 1 as [| [k x] ms Hx Hms IH]; [congruence |].
  intros _ d rest Hp Hd. cbn [snd] in Hx.
  inversion Hp as [| ? ? [Hk Hpx] Hpms]; subst. cbn [fst snd] in Hk, Hpx.
  cbn [flat_map snd] in Hd. apply Forall_app in Hd as [Hdx Hdms].
  pose proof (serialize_opens x d Hpx Hdx) as Hopen.
  destruct ms as [| kv ms'].
  - destruct (Hx d (String "}" rest) Hpx Hdx) as [fx Hfx].
    { apply closing_number_end. cbn. auto. }
    exists (S fx). intros f Hf. destruct f as [| f]; [lia |].
    cbn [List.map join]. rewrite member_text_app. cbn [parse_members].
    change (code dquote =? 34) with true. cbn iota.
    rewrite scan_escape by assumption.
    cbn [skip_ws]. change (is_ws ":") with false. cbn iota.
    change (code ":" =? 58) with true. cbn iota.
    rewrite opens_skip_ws by now apply opens_app.
    rewrite Hfx by lia. reflexivity.
  - destruct (IH ltac:(discriminate) d rest Hpms Hdms) as [fl Hfl].
    destruct (Hx d (String "," (join (List.map member_text (kv :: ms')) ++ String "}" rest))
                Hpx Hdx) as [fx Hfx].
    { apply closing_number_end. cbn. auto. }
    exists (S (Nat.max fx fl)). intros f Hf. destruct f as [| f]; [lia |].
    change (join (List.map member_text ((k, x) :: kv :: ms')))
      with (member_text (k, x) ++ "," ++ join (List.map member_text (kv :: ms'))).
    rewrite string_app_assoc, member_text_app. cbn [parse_members].
    change (code dquote =? 34) with true. cbn iota.
    rewrite scan_escape by assumption.
    cbn [skip_ws]. change (is_ws ":") with false. cbn iota.
    change (code ":" =? 58) with true. cbn iota.
    rewrite opens_skip_ws by now apply opens_app.
    rewrite string_app_assoc.
    change ("," ++ join (List.map member_text (kv :: ms')) ++ String "}" rest)
      with (String "," (join (List.map member_text (kv :: ms')) ++ String "}" rest)).
    rewrite Hfx by lia. cbn [skip_ws]. change (is_ws ",") with false. cbn iota.
    change (code "," =? 44) with true. cbn iota.
    rewrite opens_skip_ws.
    + rewrite Hfl by lia. reflexivity.
    + destruct kv as [k' x']. exists dquote.
      destruct ms'; cbn [List.map join]; [| rewrite string_app_assoc];
        rewrite member_text_app; eexists; (split; [reflexivity |]);
        repeat split; cbn; discriminate.
Qed.

(** Every value the parser can produce is read back from its own
    serialization, provided its doubles read back. *)
Lemma serialize_reads_back (v : value) : reads_back v.
Proof.
  induction v as [| b | i | u | x | s | l IHl | ms IHms] using value_induction;
    intros d rest Hp Hd Hrest.
  - exists 1%nat. intros [| f] Hf; [lia |]. reflexivity.
  - exists 1%nat. intros [| f] Hf; [lia |]. destruct b; reflexivity.
  - inversion Hp; subst. exists 1%nat. intros [| f] Hf; [lia |].
    apply parse_value_number.
    apply (parse_number_app _ _ EmptyString); [now apply parse_number_int64 | assumption].
  - inversion Hp; subst. exists 1%nat. intros [| f] Hf; [lia |].
    apply parse_value_number.
    apply (parse_number_app _ _ EmptyString); [now apply parse_number_uint64 | assumption].
  - cbn in Hd. inversion Hd; subst. exists 1%nat. intros [| f] Hf; [lia |].
    apply parse_value_number.
    apply (parse_number_app _ _ EmptyString); assumption.
  - inversion Hp; subst. exists 1%nat. intros [| f] Hf; [lia |].
    cbn [serialize]. unfold serialize_string. cbn [append].
    rewrite string_app_assoc. cbn [append parse_value].
    change (code dquote =? 91) with false. change (code dquote =? 123) with false.
    change (code dquote =? 34) with true. cbn iota.
    now rewrite scan_escape.
  - inversion Hp as [| | | | | | d' ? Hpl |]; subst. cbn [doubles_of] in Hd.
    cbn [serialize]. rewrite !string_app_assoc. cbn [append].
    destruct l as [| x l'].
    + exists 1%nat. intros [| f] Hf; [lia |]. reflexivity.
    + destruct (reads_back_elements (x :: l') IHl ltac:(discriminate) d' rest Hpl Hd)
        as [f0 Hf0].
      exists (S f0). intros [| f] Hf; [lia |].
      assert (Hopen : opens (join (List.map serialize (x :: l')) ++ String "]" rest)).
      { inversion Hpl; subst. cbn [flat_map] in Hd. apply Forall_app in Hd as [Hdx _].
        destruct l'; cbn [List.map join];
          [apply opens_app | rewrite string_app_assoc; apply opens_app];
          eapply serialize_opens; eassumption. }
      cbn [parse_value]. change (code "[" =? 91) with true. cbn iota.
      rewrite opens_skip_ws by assumption.
      destruct Hopen as (c' & t' & E & _ & H93 & _).
      specialize (Hf0 f ltac:(lia)). rewrite E in *. apply N.eqb_neq in H93.
      now rewrite H93, Hf0.
  - inversion Hp as [| | | | | | | d' ? Hpms Hnd]; subst. cbn [doubles_of] in Hd.
    cbn [serialize]. rewrite !string_app_assoc. cbn [append].
    destruct ms as [| [k x] ms'].
    + exists 1%nat. intros [| f] Hf; [lia |]. reflexivity.
    + destruct (reads_back_members ((k, x) :: ms') IHms ltac:(discriminate) d' rest
                  Hpms Hd) as [f0 Hf0].
      exists (S f0). intros [| f] Hf; [lia |].
      change (fun kv : string * value =>
                serialize_string (fst kv) ++ String ":" (serialize (snd kv)))
        with member_text.
      assert (Hopen : opens (join (List.map member_text ((k, x) :: ms')) ++ String "}" rest)).
      { exists dquote.
        destruct ms'; cbn [List.map join]; [| rewrite string_app_assoc];
          rewrite member_text_app; eexists; (split; [reflexivity |]);
          repeat split; cbn; discriminate. }
      cbn [parse_value]. change (code "{" =? 91) with false.
      change (code "{" =? 123) with true. cbn iota.
      rewrite opens_skip_ws by assumption.
      destruct Hopen as (c' & t' & E & _ & _ & H125).
      specialize (Hf0 f ltac:(lia)). rewrite E in *. apply N.eqb_neq in H125.
      rewrite H125, Hf0. now rewrite object_of_nodup.
Qed.

(** The fuel [parse] gives is never used up. *)
Lemma parse_has_fuel (s : string) :
  exists r, parse_value (S (2 * String.length s)) max_depth (skip_ws s) = Some r.
Proof.
  apply (proj1 (parse_fuel_enough _)). pose proof (skip_ws_length s). lia.
Qed.

Lemma parse_inv (s : string) (v : value) :
  parse s = inr v ->
  exists rest, parse_value (S (2 * String.length s)) max_depth (skip_ws s)
               = Some (Ok (v, rest))
               /\ skip_ws rest = EmptyString.
Proof.
  unfold parse.
  destruct (parse_value _ _ _) as [[[v' rest] | e] |]; try discriminate.
  destruct (skip_ws rest) eqn:E; [| discriminate].
  intros H. injection H as <-. eauto.
Qed.

(** Parsing the serialization of a parsed value gives the value back,
    provided the doubles in it read back. *)
Lemma parse_serialize_parsed (v : value) :
  parsed max_depth v -> Forall reparses (doubles_of v) ->
  parse (serialize v) = inr v.
Proof.
  intros Hp Hd.
  destruct (serialize_reads_back v max_depth EmptyString Hp Hd eq_refl) as [f0 Hf0].
  rewrite string_app_nil_r in Hf0.
  unfold parse. rewrite opens_skip_ws by (eapply serialize_opens; eassumption).
  set (F := S (2 * String.length (serialize v))).
  destruct (proj1 (parse_fuel_enough F) max_depth (serialize v)) as [r Hr];
    [unfold F; lia |].
  assert (r = Ok (v, EmptyString)) as ->.
  { pose proof (parse_value_fuel_mono F (Nat.max F f0) _ _ _ ltac:(lia) Hr) as H.
    rewrite Hf0 in H by lia. now injection H. }
  rewrite Hr. reflexivity.
Qed.

End ValueFacts.

(** ** Serialization is idempotent *)

(** Re-serialization, as far as the parser and the serializer decide it.
    The conversions between number texts and doubles belong to the
    library's floating-point routines and are abstract here.  For a text
    the parser accepts, if the text written for each double in the
    parsed value reads back as that double, the serialization of the
    value parses again to the same value, and serializing once more
    gives the same text.  Whether the library's conversions have that
    property is not decided here. *)
Theorem serialization_is_idempotent {D : Json.Double} (s : string) (v : Json.value) :
  Json.parse s = inr v ->
  Forall Json.reparses (Json.doubles_of v) ->
  Json.parse (Json.serialize v) = inr v
  /\ (forall v', Json.parse (Json.serialize v) = inr v' ->
                 Json.serialize v' = Json.serialize v).
Proof.
  intros Hs Hd.
  assert (H : Json.parse (Json.serialize v) = inr v).
  { apply parse_serialize_parsed; [| assumption].
    apply parse_inv in Hs as (rest & Hs & _).
    now apply (proj1 (parse_sound _)) in Hs. }
  split; [exact H |].
  intros v' H'. rewrite H in H'. now injection H' as <-.
Qed.

(** A sample with a double, under a representation of doubles by their
    text. *)
Lemma serialization_is_idempotent_witness :
  Json.parse (D := samples.text_double) (Json.serialize samples.listing_value)
  = inr samples.listing_value
  /\ (forall v',
        Json.parse (D := samples.text_double) (Json.serialize samples.listing_value)
        = inr v' ->
        Json.serialize v' = Json.serialize samples.listing_value).
Proof.
  apply (serialization_is_idempotent (D := samples.text_double) samples.listing).
  - vm_compute. reflexivity.
  - repeat constructor.
Defined.




(** * Properties of the client *)

(** ** The monad and the transport *)

(** Replaces an operation's run by the equation a run lemma gives. *)
Ltac run_with H :=
  let r := fresh "req" in let Hr := fresh "Hreq" in let E := fresh "Erun" in
  destruct H as (r & Hr & E); rewrite E; clear E.

Section TransportFacts.
Context {P : Platform}.

(** Each transport operation ends with the fault of the round trip, or,
    when there is none, with the status and the body of the response. *)
Lemma transport_outcome (v : Beast.verb) (net : network) (url : Urls.url)
      (body : string) (w : world) :
  outcome (transport v net url body w) =
  match fault v net with
  | Some ec => inl (system_error ec)
  | None => inr (observed_status net, observed_body net)
  end.
Proof.
  unfold fault, steps, find, step_ec, tolerated, observed_status, observed_body.
  destruct v; cbn [transport];
    unfold doHttpsGet, doHttpsPut, doHttpsPost, doHttpsDelete, throwing, http_write,
      bind, throw, ret, sent, modify, outcome;
    destruct (Sys.failed (resolve_ec net)); cbn; try reflexivity;
    destruct (Sys.failed (connect_ec net)); cbn; try reflexivity;
    destruct (Sys.failed (handshake_ec net)); cbn; try reflexivity;
    destruct (Sys.failed (write_ec net)) eqn:Hw; cbn; rewrite ?Hw; cbn; try reflexivity;
    destruct (Sys.failed (read_ec net)); cbn; try reflexivity;
    try (destruct (Sys.eqb (read_ec net) Beast.end_of_stream); cbn; try reflexivity);
    destruct (Sys.failed (shutdown_ec net)); cbn; try reflexivity;
    destruct (Sys.eqb (shutdown_ec net) Asio.eof); cbn; reflexivity.
Qed.


(** The transport leaves the client as it is, and puts on the wire at
    most one request, built from the verb, the URL and the body given. *)
Lemma transport_final (v : Beast.verb) (net : network) (url : Urls.url)
      (body : string) (w : world) :
  exists req,
    Beast.method_ req = v
    /\ Beast.target req = request_target url
    /\ Beast.body req = match v with
                        | Beast.put | Beast.post => body
                        | _ => EmptyString
                        end
    /\ final (transport v net url body w) =
       {| self := self w;
          wire := wire w ++ (if writes net then [req] else []) |}.
Proof.
  assert (Hw : forall w0 : world, {| self := self w0; wire := wire w0 ++ [] |} = w0)
    by (intros [c l]; cbn; now rewrite app_nil_r).
  unfold writes.
  destruct v; cbn [transport];
    unfold doHttpsGet, doHttpsPut, doHttpsPost, doHttpsDelete, throwing, http_write,
      bind, throw, ret, sent, modify, final;
    (eexists; split; [| split; [| split]];
     [ | | |
       destruct (Sys.failed (resolve_ec net)); cbn; [now rewrite Hw |];
       destruct (Sys.failed (connect_ec net)); cbn; [now rewrite Hw |];
       destruct (Sys.failed (handshake_ec net)); cbn; [now rewrite Hw |];
       destruct (Sys.failed (write_ec net)) eqn:E; cbn; rewrite ?E; cbn;
       [ repeat match goal with
                | |- context [if ?b then _ else _] => destruct b; cbn
                end; now rewrite Hw | ];
       repeat match goal with
              | |- context [if ?b then _ else _] => destruct b; cbn
              end; reflexivity ]);
    reflexivity.
Qed.

Lemma transport_run (v : Beast.verb) (net : network) (url : Urls.url)
      (body : string) (w : world) :
  exists req,
    request_for v url body req
    /\ transport v net url body w =
       (match fault v net with
        | Some ec => inl (system_error ec)
        | None => inr (observed_status net, observed_body net)
        end,
        {| self := self w; wire := wire w ++ (if writes net then [req] else []) |}).
Proof.
  destruct (transport_final v net url body w) as (req & Hm & Ht & Hb & Hf).
  exists req. split; [now repeat split |].
  pose proof (transport_outcome v net url body w) as Ho.
  unfold outcome, final in *.
  destruct (transport v net url body w) as [r w']; cbn in *.
  subst r w'. reflexivity.
Qed.

(** What each public operation does, in one equation: its outcome, the
    client and the wire it leaves, and the referenced argument. *)
Ltac run_transport v net :=
  let req := fresh "req" in
  let Hreq := fresh "Hreq" in
  let Hrun := fresh "Hrun" in
  match goal with
  | |- context [doHttpsGet net ?u ?w1] =>
      destruct (transport_run Beast.get net u EmptyString w1) as (req & Hreq & Hrun)
  | |- context [doHttpsDelete net ?u ?w1] =>
      destruct (transport_run Beast.delete_ net u EmptyString w1) as (req & Hreq & Hrun)
  | |- context [doHttpsPost net ?u ?b ?w1] =>
      destruct (transport_run Beast.post net u b w1) as (req & Hreq & Hrun)
  | |- context [doHttpsPut net ?u ?b ?w1] =>
      destruct (transport_run Beast.put net u b w1) as (req & Hreq & Hrun)
  end;
  cbn [transport] in Hrun; rewrite Hrun; exists req; split; [exact Hreq |];
  unfold answer, answer_delete, after; cbn;
  destruct (fault v net); cbn; [reflexivity |];
  match goal with
  | |- context [(?a =? ?b)%Z] => destruct (a =? b)%Z; cbn; [| reflexivity]
  end;
  try match goal with
      | |- context [Json.parse ?b] => destruct (Json.parse b); cbn
      end; reflexivity.

Lemma getAccessKeys_run (net : network) (w : world) :
  let u := utils.appendUrl (m_apiUrl (self w)) api.Endpoints.GetAccessKeys in
  exists req,
    request_for Beast.get u EmptyString req
    /\ getAccessKeys net w =
       (answer Beast.get 200 "Unable to get keys (status="
               "JSON parse error for keys: " net,
        after w u (if writes net then [req] else [])).
Proof.
  unfold getAccessKeys, bind, apiUrl, gets, assign_apiUrl, modify, doGet; cbn.
  run_transport Beast.get net.
Qed.

Lemma getAccessKey_run (net : network) (w : world) (accessKeyId : string) :
  let u := utils.appendUrl (m_apiUrl (self w))
             (resolved api.Endpoints.GetAccessKeyById accessKeyId) in
  exists req,
    request_for Beast.get u EmptyString req
    /\ getAccessKey net (w, accessKeyId) =
       (answer Beast.get 200 "Unable to get key (status="
               "JSON parse error for key: " net,
        (after w u (if writes net then [req] else []), accessKeyId)).
Proof.
  unfold getAccessKey, on_fst, bind, apiUrl, gets, assign_apiUrl, modify, doGet,
    resolved; cbn.
  run_transport Beast.get net.
Qed.

Lemma deleteAccessKey_run (net : network) (w : world) (accessKeyId : string) :
  let u := utils.appendUrl (m_apiUrl (self w))
             (resolved api.Endpoints.DeleteAccessKey accessKeyId) in
  exists req,
    request_for Beast.delete_ u EmptyString req
    /\ deleteAccessKey net (w, accessKeyId) =
       (answer_delete net,
        (after w u (if writes net then [req] else []), accessKeyId)).
Proof.
  unfold deleteAccessKey, on_fst, bind, apiUrl, gets, assign_apiUrl, modify, doDelete,
    resolved; cbn.
  run_transport Beast.delete_ net.
Qed.

Lemma createAccessKey_run (net : network) (w : world) (params : CreateAccessKeyParams) :
  let u := utils.appendUrl (m_apiUrl (self w)) api.Endpoints.CreateAccessKey in
  exists req,
    request_for Beast.post u (Json.serialize (create_object params)) req
    /\ createAccessKey net (w, params) =
       (answer Beast.post 201 "Unable to create key (status="
               "JSON parse error for key: " net,
        (after w u (if writes net then [req] else []), params)).
Proof.
  unfold createAccessKey, on_fst, bind, apiUrl, gets, assign_apiUrl, modify, doPost,
    create_object, request_object, present.
  destruct params as [[n |] [p |] [m |] [l |]]; cbn;
    run_transport Beast.post net.
Qed.

Lemma updateAccessKey_run (net : network) (w : world) (accessKeyId : Z)
      (params : UpdateAccessKeyParams) :
  let u := utils.appendUrl (m_apiUrl (self w))
             (resolved api.Endpoints.UpdateAccessKey (update_id_text accessKeyId)) in
  exists req,
    request_for Beast.put u (Json.serialize (update_object params)) req
    /\ updateAccessKey net accessKeyId (w, params) =
       (answer Beast.put 201 "Unable to update key (status="
               "JSON parse error for key: " net,
        (after w u (if writes net then [req] else []), params)).
Proof.
  unfold updateAccessKey, on_fst, bind, apiUrl, gets, assign_apiUrl, modify, doPut,
    update_object, request_object, present, resolved, update_id_text.
  destruct params as [[n |] [p |] [m |] [l |]]; cbn;
    run_transport Beast.put net.
Qed.

End TransportFacts.

(** ** Status codes and typed failures *)

(** Unfolds the five operations to their run equations. *)
Ltac runs net w id cp up key :=
  run_with (getAccessKeys_run net w);
  run_with (getAccessKey_run net w id);
  run_with (createAccessKey_run net w cp);
  run_with (updateAccessKey_run net w key up);
  run_with (deleteAccessKey_run net w id);
  unfold outcome, final; cbn [fst snd].


Section OperationFacts.
Context {P : Platform}.



Lemma answer_parse_error (v : Beast.verb) (expected : Z) (unable parsing : string)
      (net : network) (msg : string) :
  answer v expected unable parsing net = inl (OutlineParseException msg)
  <-> fault v net = None
      /\ observed_status net = expected
      /\ exists e, Json.parse (observed_body net) = inl e /\ msg = parsing ++ what e.
Proof.
  unfold answer. destruct (fault v net) as [ec |].
  - split; [discriminate | intros (H & _); discriminate].
  - destruct (Z.eqb_spec (observed_status net) expected) as [E | E].
    + destruct (Json.parse (observed_body net)) as [e | val].
      * split.
        -- intros H. injection H as <-. repeat split; auto. now exists e.
        -- intros (_ & _ & e' & He & ->). now injection He as <-.
      * split; [discriminate | intros (_ & _ & e' & He & _); discriminate].
    + split; [discriminate | intros (_ & H & _); contradiction].
Qed.

Lemma answer_returns (v : Beast.verb) (expected : Z) (unable parsing : string)
      (net : network) (val : Json.value) :
  fault v net = None -> observed_status net = expected ->
  Json.parse (observed_body net) = inr val ->
  answer v expected unable parsing net = inr (Json.serialize val).
Proof.
  intros Hf Hs Hp. unfold answer. rewrite Hf, Hs, Z.eqb_refl, Hp. reflexivity.
Qed.



Lemma answer_delete_no_parse_error (net : network) :
  is_parse_exception (answer_delete net) = false.
Proof.
  unfold answer_delete. destruct (fault Beast.delete_ net); [reflexivity |].
  destruct (observed_status net =? 204)%Z; reflexivity.
Qed.

(** C4.  The parse error has two sources.  Construction raises it
    exactly when [parse_uri] rejects the URL text, and succeeds exactly
    when [parse_uri] accepts it.  A key operation that returns a JSON
    text raises it exactly when a response with the expected status was
    received and the JSON parser rejects its body; deleteAccessKey never
    raises it.  In each case the message ends with the text of the
    parser's own error. *)
Theorem parse_error_sources
        (apiUrl cert : string) (timeout : Z)
        (net : network) (w : world) (id : string) (cp : CreateAccessKeyParams)
        (up : UpdateAccessKeyParams) (key : Z) (msg : string) :
  (new_OutlineClient apiUrl cert timeout = inl (OutlineParseException msg)
   <-> exists e, parse_uri apiUrl = inl e /\ msg = "Unable to parse API URL: " ++ what e)
  /\ ((exists c, new_OutlineClient apiUrl cert timeout = inr c)
      <-> exists u, parse_uri apiUrl = inr u)
  /\ (outcome (getAccessKeys net w) = inl (OutlineParseException msg)
      <-> fault Beast.get net = None /\ observed_status net = 200%Z
          /\ exists e, Json.parse (observed_body net) = inl e
                       /\ msg = "JSON parse error for keys: " ++ what e)
  /\ (outcome (getAccessKey net (w, id)) = inl (OutlineParseException msg)
      <-> fault Beast.get net = None /\ observed_status net = 200%Z
          /\ exists e, Json.parse (observed_body net) = inl e
                       /\ msg = "JSON parse error for key: " ++ what e)
  /\ (outcome (createAccessKey net (w, cp)) = inl (OutlineParseException msg)
      <-> fault Beast.post net = None /\ observed_status net = 201%Z
          /\ exists e, Json.parse (observed_body net) = inl e
                       /\ msg = "JSON parse error for key: " ++ what e)
  /\ (outcome (updateAccessKey net key (w, up)) = inl (OutlineParseException msg)
      <-> fault Beast.put net = None /\ observed_status net = 201%Z
          /\ exists e, Json.parse (observed_body net) = inl e
                       /\ msg = "JSON parse error for key: " ++ what e)
  /\ is_parse_exception (outcome (deleteAccessKey net (w, id))) = false.
Proof.
  runs net w id cp up key.
  split.
  { unfold new_OutlineClient. destruct (parse_uri apiUrl) as [e | u].
    - split.
      + intros H. injection H as <-. now exists e.
      + intros (e' & He & ->). now injection He as <-.
    - split; [discriminate | intros (e' & He & _); discriminate]. }
  split.
  { unfold new_OutlineClient. destruct (parse_uri apiUrl) as [e | u].
    - split; intros (x & Hx); discriminate.
    - split; intros _; eexists; reflexivity. }
  split; [apply answer_parse_error |].
  split; [apply answer_parse_error |].
  split; [apply answer_parse_error |].
  split; [apply answer_parse_error | apply answer_delete_no_parse_error].
Qed.

Lemma parse_empty_access_keys :
  Json.parse (q "{'accessKeys':[]}")
  = inr (Json.JObject [("accessKeys", Json.JArray [])]).
Proof. reflexivity. Qed.

Lemma serialize_empty_access_keys :
  Json.serialize (Json.JObject [("accessKeys", Json.JArray [])])
  = q "{'accessKeys':[]}".
Proof. reflexivity. Qed.

(** C5.  When a response with status 200 is received, getAccessKeys and
    getAccessKey return the serialization of the value its body parses
    to; for the body [{"accessKeys":[]}] that is the same text. *)
Theorem get_returns_reserialized_body (net : network) (w : world) (id : string) :
  fault Beast.get net = None ->
  observed_status net = 200%Z ->
  (forall val, Json.parse (observed_body net) = inr val ->
     outcome (getAccessKeys net w) = inr (Json.serialize val)
     /\ outcome (getAccessKey net (w, id)) = inr (Json.serialize val))
  /\ (observed_body net = q "{'accessKeys':[]}" ->
      outcome (getAccessKeys net w) = inr (q "{'accessKeys':[]}")
      /\ outcome (getAccessKey net (w, id)) = inr (q "{'accessKeys':[]}")).
Proof.
  intros Hf Hs.
  run_with (getAccessKeys_run net w).
  run_with (getAccessKey_run net w id).
  unfold outcome; cbn [fst].
  split.
  - intros val Hp. split; now apply answer_returns.
  - intros Hb. rewrite <- serialize_empty_access_keys.
    split; apply answer_returns; auto; rewrite Hb; apply parse_empty_access_keys.
Qed.

(** C6.  deleteAccessKey returns normally, with no value, when a
    response with status 204 is received.  Whatever the network does, it
    never raises the parse error, and its outcome does not depend on the
    body of the response: the body is not read as JSON. *)
Theorem delete_returns_nothing_and_never_parses
        (net : network) (w : world) (id : string) :
  (fault Beast.delete_ net = None -> observed_status net = 204%Z ->
   outcome (deleteAccessKey net (w, id)) = inr tt)
  /\ is_parse_exception (outcome (deleteAccessKey net (w, id))) = false
  /\ (forall b, outcome (deleteAccessKey (with_body net b) (w, id))
                = outcome (deleteAccessKey net (w, id))).
Proof.
  split; [| split].
  - intros Hf Hs. run_with (deleteAccessKey_run net w id).
    unfold outcome, answer_delete; cbn [fst]. now rewrite Hf, Hs.
  - run_with (deleteAccessKey_run net w id).
    apply answer_delete_no_parse_error.
  - intros b.
    run_with (deleteAccessKey_run (with_body net b) w id).
    run_with (deleteAccessKey_run net w id).
    reflexivity.
Qed.


(** ** State the operations leave behind *)

(** Substituting the identifier in a key endpoint puts it after the
    last path separator. *)
Lemma resolved_key_endpoint (id : string) :
  resolved "/access-keys/{id}" id = "/access-keys/" ++ id.
Proof.
  unfold resolved, utils.replacePlaceholders, replace_all; cbn.
  now rewrite string_app_nil_r.
Qed.

Lemma emitted_after (w : world) (u : Urls.url) (reqs : list Beast.request) :
  emitted w (after w u reqs) = reqs.
Proof.
  unfold emitted, after; cbn.
  induction (wire w) as [| r l IH]; cbn; auto.
Qed.

(** C8.  Every public operation overwrites the stored API URL with the
    result of appending its endpoint (with the identifier substituted) to
    the URL stored before, whatever the outcome of the call; nothing
    restores it, so a second call appends to the URL the first one left. *)
Theorem stored_url_is_appended_to
        (net net' : network) (w : world) (id : string) (cp : CreateAccessKeyParams)
        (up : UpdateAccessKeyParams) (key : Z) :
  let base := m_apiUrl (self w) in
  m_apiUrl (self (final (getAccessKeys net w)))
  = utils.appendUrl base api.Endpoints.GetAccessKeys
  /\ m_apiUrl (self (fst (final (getAccessKey net (w, id)))))
     = utils.appendUrl base (resolved api.Endpoints.GetAccessKeyById id)
  /\ m_apiUrl (self (fst (final (createAccessKey net (w, cp)))))
     = utils.appendUrl base api.Endpoints.CreateAccessKey
  /\ m_apiUrl (self (fst (final (updateAccessKey net key (w, up)))))
     = utils.appendUrl base
         (resolved api.Endpoints.UpdateAccessKey (update_id_text key))
  /\ m_apiUrl (self (fst (final (deleteAccessKey net (w, id)))))
     = utils.appendUrl base (resolved api.Endpoints.DeleteAccessKey id)
  /\ m_apiUrl (self (final (getAccessKeys net' (final (getAccessKeys net w)))))
     = utils.appendUrl (utils.appendUrl base api.Endpoints.GetAccessKeys)
         api.Endpoints.GetAccessKeys.
Proof.
  intros base.
  run_with (getAccessKeys_run net' (final (getAccessKeys net w))).
  runs net w id cp up key.
  repeat split; reflexivity.
Qed.

(** C10.  The arguments passed by reference are left as they were: the
    identifier text of getAccessKey and deleteAccessKey, the parameter
    struct of createAccessKey and updateAccessKey, whether the operation
    returns or raises. *)
Theorem reference_arguments_unchanged
        (net : network) (w : world) (id : string) (cp : CreateAccessKeyParams)
        (up : UpdateAccessKeyParams) (key : Z) :
  snd (final (getAccessKey net (w, id))) = id
  /\ snd (final (deleteAccessKey net (w, id))) = id
  /\ snd (final (createAccessKey net (w, cp))) = cp
  /\ snd (final (updateAccessKey net key (w, up))) = up.
Proof.
  run_with (getAccessKey_run net w id).
  run_with (deleteAccessKey_run net w id).
  run_with (createAccessKey_run net w cp).
  run_with (updateAccessKey_run net w key up).
  repeat split; reflexivity.
Qed.

(** ** Request bodies *)

Lemma request_object_lookup (n p m : option string) (l : option N) :
  match request_object n p m l with
  | Json.JObject ms =>
      Json.object_find ms "name" = option_map Json.JString n
      /\ Json.object_find ms "password" = option_map Json.JString p
      /\ Json.object_find ms "method" = option_map Json.JString m
      /\ Json.object_find ms "limit"
         = option_map (fun b => Json.JObject [("bytes", Json.JUInt64 b)]) l
      /\ Json.object_find ms "data_limit_bytes" = None
      /\ List.map fst ms
         = (List.map fst (present "name" Json.JString n)
            ++ List.map fst (present "password" Json.JString p)
            ++ List.map fst (present "method" Json.JString m)
            ++ List.map fst (present "limit" Json.JUInt64 l))%list
  | _ => False
  end.
Proof.
  destruct n, p, m, l; cbn; repeat split; reflexivity.
Qed.

(** C2.  The request that createAccessKey and updateAccessKey put on
    the wire has as body the serialization of an object with one member
    per optional field that is present: name, password and method as
    strings under their own key, the data limit as the object
    [{"bytes": n}] under the key [limit], and no key [data_limit_bytes].
    With no field present the body is the empty object. *)
Theorem request_body_has_present_fields
        (net : network) (w : world) (cp : CreateAccessKeyParams)
        (up : UpdateAccessKeyParams) (key : Z) :
  (forall req, In req (emitted w (fst (final (createAccessKey net (w, cp))))) ->
     Beast.method_ req = Beast.post
     /\ Beast.body req = Json.serialize (create_object cp))
  /\ (forall req, In req (emitted w (fst (final (updateAccessKey net key (w, up))))) ->
        Beast.method_ req = Beast.put
        /\ Beast.body req = Json.serialize (update_object up))
  /\ (writes net = true ->
      List.length (emitted w (fst (final (createAccessKey net (w, cp))))) = 1%nat
      /\ List.length (emitted w (fst (final (updateAccessKey net key (w, up))))) = 1%nat)
  /\ (forall n p m l,
        match request_object n p m l with
        | Json.JObject ms =>
            Json.object_find ms "name" = option_map Json.JString n
            /\ Json.object_find ms "password" = option_map Json.JString p
            /\ Json.object_find ms "method" = option_map Json.JString m
            /\ Json.object_find ms "limit"
               = option_map (fun b => Json.JObject [("bytes", Json.JUInt64 b)]) l
            /\ Json.object_find ms "data_limit_bytes" = None
            /\ List.map fst ms
               = (List.map fst (present "name" Json.JString n)
                  ++ List.map fst (present "password" Json.JString p)
                  ++ List.map fst (present "method" Json.JString m)
                  ++ List.map fst (present "limit" Json.JUInt64 l))%list
        | _ => False
        end)
  /\ Json.serialize (request_object None None None None) = "{}"
  /\ Json.serialize (request_object (Some "alice") None None (Some 1000))
     = q "{'name':'alice','limit':{'bytes':1000}}".
Proof.
  run_with (createAccessKey_run net w cp).
  run_with (updateAccessKey_run net w key up).
  unfold final; cbn [fst snd]. rewrite !emitted_after.
  destruct Hreq as (Hm & _ & Hb), Hreq0 as (Hm0 & _ & Hb0).
  split; [| split; [| split; [| split; [| split]]]].
  - intros r Hin. destruct (writes net); cbn in Hin; [| contradiction].
    destruct Hin as [<- | []]. auto.
  - intros r Hin. destruct (writes net); cbn in Hin; [| contradiction].
    destruct Hin as [<- | []]. auto.
  - intros ->. auto.
  - apply request_object_lookup.
  - reflexivity.
  - reflexivity.
Qed.

End OperationFacts.

(** ** Transport faults *)

Section FaultFacts.
Context {P : Platform}.

Lemma error_code_eqb_eq (a b : Sys.error_code) : Sys.eqb a b = true <-> a = b.
Proof.
  unfold Sys.eqb. rewrite andb_true_iff, String.eqb_eq, Z.eqb_eq.
  destruct a as [ca va], b as [cb vb]; cbn. split.
  - intros [-> ->]. reflexivity.
  - intros H. injection H as -> ->. auto.
Qed.

Lemma tolerated_spec (v : Beast.verb) (s : step) (ec : Sys.error_code) :
  tolerated v s ec = true
  <-> (s = Shutdown /\ ec = Asio.eof)
      \/ (v = Beast.post /\ s = Read /\ ec = Beast.end_of_stream).
Proof.
  destruct s, v; cbn; rewrite ?error_code_eqb_eq;
    intuition (try congruence).
Qed.

Lemma passes_spec (v : Beast.verb) (net : network) (s : step) :
  passes v net s
  <-> Sys.failed (step_ec net s) && negb (tolerated v s (step_ec net s)) = false.
Proof.
  unfold passes.
  destruct (Sys.failed (step_ec net s)), (tolerated v s (step_ec net s)); cbn;
    intuition discriminate.
Qed.

Lemma find_first {A : Type} (f : A -> bool) (before : list A) (x : A) (rest : list A) :
  (forall y, In y before -> f y = false) -> f x = true ->
  find f (before ++ x :: rest) = Some x.
Proof.
  intros Hb Hx. induction before as [| y l IH]; cbn.
  - now rewrite Hx.
  - rewrite (Hb y) by now left. apply IH. intros z Hz. apply Hb. now right.
Qed.

Lemma find_none {A : Type} (f : A -> bool) (l : list A) :
  (forall y, In y l -> f y = false) -> find f l = None.
Proof.
  induction l as [| y l IH]; cbn; intros H; [reflexivity |].
  rewrite (H y) by now left. apply IH. intros z Hz. apply H. now right.
Qed.

(** C7, as the code has it.  A transport operation takes the steps
    resolve, connect, handshake, write, read, shutdown.  The failures it
    lets pass are [eof] at the shutdown and, in the POST operation only,
    [end_of_stream] at the read.  When every step passes, the operation
    returns the status and the body of the response; otherwise it raises
    [system_error] carrying the error code of the first step that does
    not pass. *)
Theorem transport_fault_propagation
        (v : Beast.verb) (net : network) (url : Urls.url) (body : string) (w : world) :
  (forall s ec,
      tolerated v s ec = true
      <-> (s = Shutdown /\ ec = Asio.eof)
          \/ (v = Beast.post /\ s = Read /\ ec = Beast.end_of_stream))
  /\ ((forall s, passes v net s) ->
      outcome (transport v net url body w)
      = inr (observed_status net, observed_body net))
  /\ (forall before s rest,
        steps = (before ++ s :: rest)%list ->
        (forall s', In s' before -> passes v net s') ->
        ~ passes v net s ->
        outcome (transport v net url body w) = inl (system_error (step_ec net s))).
Proof.
  split; [intros s ec; apply tolerated_spec |].
  rewrite transport_outcome. unfold fault. split.
  - intros Hall. rewrite find_none; [reflexivity |].
    intros s _. now apply passes_spec.
  - intros before s rest -> Hbefore Hs.
    rewrite (find_first _ before s rest); [reflexivity | |].
    + intros s' Hin. now apply passes_spec, Hbefore.
    + rewrite passes_spec in Hs. now apply not_false_is_true.
Qed.

End FaultFacts.

(** C7, where the stated rule fails: the read of the POST operation
    ends with the error [end_of_stream], and the operation returns
    normally, with the status and body of the untouched response. *)
Lemma post_read_end_of_stream_returns :
  Sys.failed (read_ec samples.closes_early) = true
  /\ step_ec samples.closes_early Read = Beast.end_of_stream
  /\ outcome (doHttpsPost (P := samples.platform) samples.closes_early
                samples.base_url "{}" samples.fresh)
     = inr (200%Z, EmptyString).
Proof. repeat split. Qed.

(** The same read error makes the GET operation raise. *)
Lemma get_read_end_of_stream_raises :
  outcome (doHttpsGet (P := samples.platform) samples.closes_early
             samples.base_url samples.fresh)
  = inl (system_error Beast.end_of_stream).
Proof. reflexivity. Qed.

(** ** The identifier of updateAccessKey *)

(** C3, what the code does.  The [int] identifier is assigned to the
    placeholder's [std::string] value, which makes that value the single
    byte [accessKeyId mod 256]; the path the request goes to ends with
    that byte, not with the decimal digits.  For the identifier 3 the
    byte is 3, where the decimal text is the digit with code 51. *)
Theorem update_substitutes_one_byte :
  (forall (P : Platform) (net : network) (w : world) (up : UpdateAccessKeyParams)
          (key : Z),
      m_apiUrl (self (fst (final (updateAccessKey net key (w, up)))))
      = utils.appendUrl (m_apiUrl (self w))
          ("/access-keys/" ++ String (chr (Z.to_N (key mod 256))) EmptyString))
  /\ List.map Beast.target
       (wire (fst (final (updateAccessKey (P := samples.platform)
                            (samples.answers 201 "{}") 3
                            (samples.fresh, samples.update_method_only)))))
     = ["/secret/access-keys/" ++ String (chr 3) EmptyString]
  /\ Std.to_string 3 = String (chr 51) EmptyString
  /\ List.map Beast.target
       (wire (fst (final (updateAccessKey (P := samples.platform)
                            (samples.answers 201 "{}") 51
                            (samples.fresh, samples.update_method_only)))))
     = ["/secret/access-keys/3"].
Proof.
  split; [| repeat split].
  intros P net w up key.
  run_with (updateAccessKey_run net w key up).
  unfold final, after; cbn [fst snd self m_apiUrl set_apiUrl].
  now rewrite resolved_key_endpoint.
Qed.

(** ** Concrete runs *)

(** C5 on a sample: a server that answers 200 with [{"accessKeys":[]}]. *)
Lemma get_returns_reserialized_body_witness :
  outcome (getAccessKeys (P := samples.platform)
             (samples.answers 200 (q "{'accessKeys':[]}")) samples.fresh)
  = inr (q "{'accessKeys':[]}")
  /\ outcome (getAccessKey (P := samples.platform)
                (samples.answers 200 (q "{'accessKeys':[]}")) (samples.fresh, "1"))
     = inr (q "{'accessKeys':[]}").
Proof.
  exact (proj2 (get_returns_reserialized_body (P := samples.platform)
                  (samples.answers 200 (q "{'accessKeys':[]}")) samples.fresh "1"
                  eq_refl eq_refl) eq_refl).
Defined.

(** C6 on a sample: a server that answers 204, with a body that is no
    JSON text. *)
Lemma delete_returns_nothing_witness :
  outcome (deleteAccessKey (P := samples.platform)
             (samples.answers 204 "gone") (samples.fresh, "5"))
  = inr tt.
Proof.
  exact (proj1 (delete_returns_nothing_and_never_parses (P := samples.platform)
                  (samples.answers 204 "gone") samples.fresh "5")
               eq_refl eq_refl).
Defined.

(** C7 on a sample: the handshake fails after resolve and connect
    succeeded, and the PUT operation raises that error code. *)
Lemma transport_fault_propagation_witness :
  outcome (transport (P := samples.platform) Beast.put samples.handshake_fails
             samples.base_url "{}" samples.fresh)
  = inl (system_error samples.tls_failure).
Proof.
  refine (proj2 (proj2 (transport_fault_propagation (P := samples.platform)
                          Beast.put samples.handshake_fails samples.base_url "{}"
                          samples.fresh))
                [Resolve; Connect] Handshake [Write; Read; Shutdown] eq_refl _ _).
  - intros s' [<- | [<- | []]]; left; reflexivity.
  - intros [H | H]; discriminate H.
Defined.

(** ** The runs the specification lists *)

Section Runs.
#[local] Existing Instance samples.platform.

Example construction_accepts_the_known_url :
  new_OutlineClient "https://vpn.example.org:8443/secret" EmptyString 5
  = inr samples.client.
Proof. reflexivity. Qed.

Example construction_rejects_other_text :
  new_OutlineClient "not a url" EmptyString 5
  = inl (OutlineParseException "Unable to parse API URL: boost.url:1").
Proof. reflexivity. Qed.

Example getAccessKeys_500 :
  outcome (getAccessKeys (samples.answers 500 EmptyString) samples.fresh)
  = inl (OutlineServerErrorException "Unable to get keys (status=500)").
Proof. reflexivity. Qed.

Example getAccessKey_200 :
  outcome (getAccessKey (samples.answers 200 (q "{'id':'1','name':'x'}"))
             (samples.fresh, "1"))
  = inr (q "{'id':'1','name':'x'}").
Proof. vm_compute. reflexivity. Qed.

Example getAccessKey_404 :
  outcome (getAccessKey (samples.answers 404 EmptyString) (samples.fresh, "1"))
  = inl (OutlineServerErrorException "Unable to get key (status=404)").
Proof. reflexivity. Qed.

Example getAccessKey_path :
  List.map Beast.target
    (wire (fst (final (getAccessKey (samples.answers 200 "{}") (samples.fresh, "17")))))
  = ["/secret/access-keys/17"].
Proof. reflexivity. Qed.

Example getAccessKeys_body_is_no_json :
  outcome (getAccessKeys (samples.answers 200 "<html>") samples.fresh)
  = inl (OutlineParseException "JSON parse error for keys: boost.json:1").
Proof. reflexivity. Qed.

Example createAccessKey_alice :
  let run := createAccessKey (samples.answers 201 (q "{'id':'2','name':'alice'}"))
               (samples.fresh, samples.create_alice) in
  outcome run = inr (q "{'id':'2','name':'alice'}")
  /\ List.map Beast.body (wire (fst (final run)))
     = [q "{'name':'alice','limit':{'bytes':1000}}"].
Proof. split; vm_compute; reflexivity. Qed.

Example createAccessKey_400 :
  outcome (createAccessKey (samples.answers 400 EmptyString)
             (samples.fresh, samples.create_alice))
  = inl (OutlineServerErrorException "Unable to create key (status=400)").
Proof. reflexivity. Qed.

Example createAccessKey_nothing :
  List.map Beast.body
    (wire (fst (final (createAccessKey (samples.answers 201 "{}")
                         (samples.fresh, samples.create_nothing)))))
  = ["{}"].
Proof. reflexivity. Qed.

Example updateAccessKey_method :
  let run := updateAccessKey (samples.answers 201 "{}") 3
               (samples.fresh, samples.update_method_only) in
  outcome run = inr "{}"
  /\ List.map Beast.body (wire (fst (final run))) = [q "{'method':'aes-256-gcm'}"].
Proof. split; vm_compute; reflexivity. Qed.

Example updateAccessKey_404 :
  outcome (updateAccessKey (samples.answers 404 EmptyString) 3
             (samples.fresh, samples.update_method_only))
  = inl (OutlineServerErrorException "Unable to update key (status=404)").
Proof. reflexivity. Qed.

Example deleteAccessKey_403 :
  outcome (deleteAccessKey (samples.answers 403 EmptyString) (samples.fresh, "5"))
  = inl (OutlineServerErrorException "Unable to delete key (status=403)").
Proof. reflexivity. Qed.

(** The second call goes to the path the first one left. *)
Example second_call_path :
  Urls.encoded_path
    (m_apiUrl (self (final (getAccessKeys (samples.answers 200 "{}")
                              (final (getAccessKeys (samples.answers 200 "{}")
                                        samples.fresh))))))
  = "/secret/access-keys/access-keys".
Proof. reflexivity. Qed.

End Runs.

(** ** Further properties *)

(** X1.  A public operation writes at most one request: exactly one
    when the steps up to the write succeed, none otherwise. *)
Theorem one_request_per_operation
        {P : Platform} (net : network) (w : world) (id : string)
        (cp : CreateAccessKeyParams) (up : UpdateAccessKeyParams) (key : Z) :
  let n := if writes net then 1%nat else 0%nat in
  List.length (emitted w (final (getAccessKeys net w))) = n
  /\ List.length (emitted w (fst (final (getAccessKey net (w, id))))) = n
  /\ List.length (emitted w (fst (final (createAccessKey net (w, cp))))) = n
  /\ List.length (emitted w (fst (final (updateAccessKey net key (w, up))))) = n
  /\ List.length (emitted w (fst (final (deleteAccessKey net (w, id))))) = n.
Proof.
  intros n. runs net w id cp up key. rewrite !emitted_after.
  unfold n. destruct (writes net); repeat split; reflexivity.
Qed.

(** X2.  The request target is built from the pointer to the start of
    the path in the URL's buffer, which runs on through the query and the
    fragment; the query is then added once more.  For a URL with a
    query that is not empty the target holds the query twice. *)
Theorem request_target_repeats_query (u : Urls.url) (query : string) :
  Urls.query u = Some query -> query <> EmptyString ->
  request_target u
  = (Urls.encoded_path u ++ "?" ++ query
       ++ match Urls.fragment u with
          | Some f => String "#" f
          | None => EmptyString
          end)
    ++ "?" ++ query.
Proof.
  intros Hq Hne. unfold request_target, Urls.from_path_data, Urls.encoded_query.
  rewrite Hq. destruct (String.eqb_spec query EmptyString); [contradiction |].
  reflexivity.
Qed.

Lemma request_target_repeats_query_witness :
  request_target samples.base_url_with_query = "/secret?limit=10?limit=10".
Proof.
  refine (request_target_repeats_query samples.base_url_with_query "limit=10" eq_refl _).
  discriminate.
Defined.

(** ** The exact request of each operation *)

Section ExactRuns.
Context {P : Platform}.

(** The transport leaves the client as it is, and when the steps up to
    the write succeed it puts the framed request on the wire. *)
Lemma transport_wire (v : Beast.verb) (net : network) (url : Urls.url)
      (body : string) (w : world) :
  final (transport v net url body w) =
  {| self := self w;
     wire := (wire w ++ (if writes net then [framed v url body] else []))%list |}.
Proof.
  assert (Hw : forall w0 : world, {| self := self w0; wire := wire w0 ++ [] |} = w0)
    by (intros [c l]; cbn; now rewrite app_nil_r).
  unfold writes, framed.
  destruct v; cbn [transport];
    unfold doHttpsGet, doHttpsPut, doHttpsPost, doHttpsDelete, throwing, http_write,
      bind, throw, ret, sent, modify, final, Beast.prepare_payload, Beast.set,
      Beast.set_body;
    (destruct (Sys.failed (resolve_ec net)); cbn; [now rewrite Hw |];
     destruct (Sys.failed (connect_ec net)); cbn; [now rewrite Hw |];
     destruct (Sys.failed (handshake_ec net)); cbn; [now rewrite Hw |];
     destruct (Sys.failed (write_ec net)) eqn:E; cbn; rewrite ?E; cbn;
     [ repeat match goal with
              | |- context [if ?b then _ else _] => destruct b; cbn
              end; now rewrite Hw | ];
     repeat match goal with
            | |- context [if ?b then _ else _] => destruct b; cbn
            end; reflexivity).
Qed.

Lemma transport_exact (v : Beast.verb) (net : network) (url : Urls.url)
      (body : string) (w : world) :
  transport v net url body w =
  (match fault v net with
   | Some ec => inl (system_error ec)
   | None => inr (observed_status net, observed_body net)
   end,
   {| self := self w;
      wire := (wire w ++ (if writes net then [framed v url body] else []))%list |}).
Proof.
  pose proof (transport_outcome v net url body w) as Ho.
  pose proof (transport_wire v net url body w) as Hf.
  unfold outcome, final in *.
  destruct (transport v net url body w) as [r w']; cbn in *.
  subst r w'. reflexivity.
Qed.

Ltac exact_transport v net :=
  let Hrun := fresh "Hrun" in
  match goal with
  | |- context [doHttpsGet net ?u ?w1] =>
      pose proof (transport_exact Beast.get net u EmptyString w1) as Hrun
  | |- context [doHttpsDelete net ?u ?w1] =>
      pose proof (transport_exact Beast.delete_ net u EmptyString w1) as Hrun
  | |- context [doHttpsPost net ?u ?b ?w1] =>
      pose proof (transport_exact Beast.post net u b w1) as Hrun
  | |- context [doHttpsPut net ?u ?b ?w1] =>
      pose proof (transport_exact Beast.put net u b w1) as Hrun
  end;
  cbn [transport] in Hrun; rewrite Hrun;
  unfold answer, answer_delete, after; cbn;
  destruct (fault v net); cbn; [reflexivity |];
  match goal with
  | |- context [(?a =? ?b)%Z] => destruct (a =? b)%Z; cbn; [| reflexivity]
  end;
  try match goal with
      | |- context [Json.parse ?b] => destruct (Json.parse b); cbn
      end; reflexivity.

Lemma getAccessKeys_exact (net : network) (w : world) :
  getAccessKeys net w =
  (answer Beast.get 200 "Unable to get keys (status=" "JSON parse error for keys: " net,
   after w (utils.appendUrl (m_apiUrl (self w)) api.Endpoints.GetAccessKeys)
     (if writes net
      then [framed Beast.get
              (utils.appendUrl (m_apiUrl (self w)) api.Endpoints.GetAccessKeys)
              EmptyString]
      else [])).
Proof.
  unfold getAccessKeys, bind, apiUrl, gets, assign_apiUrl, modify, doGet; cbn.
  exact_transport Beast.get net.
Qed.

Lemma getAccessKey_exact (net : network) (w : world) (accessKeyId : string) :
  getAccessKey net (w, accessKeyId) =
  (answer Beast.get 200 "Unable to get key (status=" "JSON parse error for key: " net,
   (after w (utils.appendUrl (m_apiUrl (self w))
               (resolved api.Endpoints.GetAccessKeyById accessKeyId))
      (if writes net
       then [framed Beast.get
               (utils.appendUrl (m_apiUrl (self w))
                  (resolved api.Endpoints.GetAccessKeyById accessKeyId))
               EmptyString]
       else []),
    accessKeyId)).
Proof.
  unfold getAccessKey, on_fst, bind, apiUrl, gets, assign_apiUrl, modify, doGet,
    resolved; cbn.
  exact_transport Beast.get net.
Qed.

Lemma deleteAccessKey_exact (net : network) (w : world) (accessKeyId : string) :
  deleteAccessKey net (w, accessKeyId) =
  (answer_delete net,
   (after w (utils.appendUrl (m_apiUrl (self w))
               (resolved api.Endpoints.DeleteAccessKey accessKeyId))
      (if writes net
       then [framed Beast.delete_
               (utils.appendUrl (m_apiUrl (self w))
                  (resolved api.Endpoints.DeleteAccessKey accessKeyId))
               EmptyString]
       else []),
    accessKeyId)).
Proof.
  unfold deleteAccessKey, on_fst, bind, apiUrl, gets, assign_apiUrl, modify, doDelete,
    resolved; cbn.
  exact_transport Beast.delete_ net.
Qed.

Lemma createAccessKey_exact (net : network) (w : world) (params : CreateAccessKeyParams) :
  createAccessKey net (w, params) =
  (answer Beast.post 201 "Unable to create key (status=" "JSON parse error for key: " net,
   (after w (utils.appendUrl (m_apiUrl (self w)) api.Endpoints.CreateAccessKey)
      (if writes net
       then [framed Beast.post
               (utils.appendUrl (m_apiUrl (self w)) api.Endpoints.CreateAccessKey)
               (Json.serialize (create_object params))]
       else []),
    params)).
Proof.
  unfold createAccessKey, on_fst, bind, apiUrl, gets, assign_apiUrl, modify, doPost,
    create_object, request_object, present.
  destruct params as [[n |] [p |] [m |] [l |]]; cbn;
    exact_transport Beast.post net.
Qed.

Lemma updateAccessKey_exact (net : network) (w : world) (accessKeyId : Z)
      (params : UpdateAccessKeyParams) :
  updateAccessKey net accessKeyId (w, params) =
  (answer Beast.put 201 "Unable to update key (status=" "JSON parse error for key: " net,
   (after w (utils.appendUrl (m_apiUrl (self w))
               (resolved api.Endpoints.UpdateAccessKey (update_id_text accessKeyId)))
      (if writes net
       then [framed Beast.put
               (utils.appendUrl (m_apiUrl (self w))
                  (resolved api.Endpoints.UpdateAccessKey (update_id_text accessKeyId)))
               (Json.serialize (update_object params))]
       else []),
    params)).
Proof.
  unfold updateAccessKey, on_fst, bind, apiUrl, gets, assign_apiUrl, modify, doPut,
    update_object, request_object, present, resolved, update_id_text.
  destruct params as [[n |] [p |] [m |] [l |]]; cbn;
    exact_transport Beast.put net.
Qed.

End ExactRuns.

(** Rewrites the five operations with their exact equations. *)
Ltac exactly net w id cp up key :=
  rewrite ?(getAccessKeys_exact net w), ?(getAccessKey_exact net w id),
    ?(createAccessKey_exact net w cp), ?(updateAccessKey_exact net w key up),
    ?(deleteAccessKey_exact net w id);
  unfold outcome, final; cbn [fst snd].

Section OutcomeFacts.
Context {P : Platform}.

Lemma answer_system_error (v : Beast.verb) (expected : Z) (unable parsing : string)
      (net : network) (ec : Sys.error_code) :
  answer v expected unable parsing net = inl (system_error ec)
  <-> fault v net = Some ec.
Proof.
  unfold answer. destruct (fault v net) as [ec' |].
  - split; intros H; injection H as <-; reflexivity.
  - destruct (observed_status net =? expected)%Z;
      [destruct (Json.parse (observed_body net)) |]; split; discriminate.
Qed.

Lemma answer_delete_system_error (net : network) (ec : Sys.error_code) :
  answer_delete net = inl (system_error ec) <-> fault Beast.delete_ net = Some ec.
Proof.
  unfold answer_delete. destruct (fault Beast.delete_ net) as [ec' |].
  - split; intros H; injection H as <-; reflexivity.
  - destruct (observed_status net =? 204)%Z; split; discriminate.
Qed.

Lemma answer_returns_iff (v : Beast.verb) (expected : Z) (unable parsing : string)
      (net : network) (text : string) :
  answer v expected unable parsing net = inr text
  <-> fault v net = None
      /\ observed_status net = expected
      /\ exists val, Json.parse (observed_body net) = inr val
                     /\ text = Json.serialize val.
Proof.
  unfold answer. destruct (fault v net) as [ec |].
  - split; [discriminate | intros (H & _); discriminate].
  - destruct (Z.eqb_spec (observed_status net) expected) as [E | E].
    + destruct (Json.parse (observed_body net)) as [e | val].
      * split; [discriminate | intros (_ & _ & val & Hv & _); discriminate].
      * split.
        -- intros H. injection H as <-. repeat split; auto. now exists val.
        -- intros (_ & _ & val' & Hv & ->). now injection Hv as <-.
    + split; [discriminate | intros (_ & H & _); contradiction].
Qed.

Lemma answer_delete_returns_iff (net : network) :
  answer_delete net = inr tt
  <-> fault Beast.delete_ net = None /\ observed_status net = 204%Z.
Proof.
  unfold answer_delete. destruct (fault Beast.delete_ net) as [ec |].
  - split; [discriminate | intros (H & _); discriminate].
  - destruct (Z.eqb_spec (observed_status net) 204) as [E | E].
    + split; auto.
    + split; [discriminate | intros (_ & H); contradiction].
Qed.

(** Without a transport fault the steps up to the write succeeded. *)
Lemma no_fault_writes (v : Beast.verb) (net : network) :
  fault v net = None -> writes net = true.
Proof.
  unfold fault, writes, steps; cbn [find step_ec tolerated].
  destruct (Sys.failed (resolve_ec net)); cbn; [discriminate |].
  destruct (Sys.failed (connect_ec net)); cbn; [discriminate |].
  destruct (Sys.failed (handshake_ec net)); cbn; [discriminate |].
  destruct (Sys.failed (write_ec net)); cbn; [discriminate | reflexivity].
Qed.

Lemma answer_not_system_error (v : Beast.verb) (expected : Z) (unable parsing : string)
      (net : network) :
  is_system_error (answer v expected unable parsing net) = false ->
  fault v net = None.
Proof.
  unfold answer. destruct (fault v net); [discriminate | reflexivity].
Qed.

Lemma answer_delete_not_system_error (net : network) :
  is_system_error (answer_delete net) = false -> fault Beast.delete_ net = None.
Proof.
  unfold answer_delete. destruct (fault Beast.delete_ net); [discriminate | reflexivity].
Qed.

Lemma settings_kept_after (w : world) (u : Urls.url) (reqs : list Beast.request) :
  settings_kept w (after w u reqs).
Proof.
  unfold settings_kept, after; cbn. repeat split.
  induction (wire w) as [| r l IH]; cbn; [reflexivity | now rewrite IH].
Qed.

Lemma with_cert_timeout_after (cert : string) (timeout : Z) (w : world)
      (u : Urls.url) (reqs : list Beast.request) :
  after (with_cert_timeout cert timeout w) u reqs
  = with_cert_timeout cert timeout (after w u reqs).
Proof. reflexivity. Qed.

Lemma framed_bodiless (v : Beast.verb) (u : Urls.url) (body : string) :
  v = Beast.get \/ v = Beast.delete_ ->
  bodiless (Urls.host u) (framed v u body).
Proof. intros [-> | ->]; repeat split. Qed.

Lemma framed_carries_json (v : Beast.verb) (u : Urls.url) (body : string) :
  v = Beast.put \/ v = Beast.post ->
  carries_json (Urls.host u) (framed v u body).
Proof.
  intros Hv. split; [reflexivity |].
  exists (Std.digits (N.of_nat (String.length body))).
  split; [destruct Hv as [-> | ->]; reflexivity |].
  split; [apply DigitFacts.digits_all_digits |].
  rewrite DigitFacts.digits_value. destruct Hv as [-> | ->]; reflexivity.
Qed.

Lemma in_written {A : Type} (b : bool) (x y : A) :
  In y (if b then [x] else []) -> y = x.
Proof. destruct b; cbn; intuition. Qed.

End OutcomeFacts.

(** X3.  A transport fault leaves each public operation as it left the
    transport: the operation raises [system_error] with a code exactly
    when the round trip has that code as its fault.  No operation catches
    or rewraps it. *)
Theorem transport_faults_reach_the_caller
        {P : Platform} (net : network) (w : world) (id : string)
        (cp : CreateAccessKeyParams) (up : UpdateAccessKeyParams) (key : Z)
        (ec : Sys.error_code) :
  (outcome (getAccessKeys net w) = inl (system_error ec)
   <-> fault Beast.get net = Some ec)
  /\ (outcome (getAccessKey net (w, id)) = inl (system_error ec)
      <-> fault Beast.get net = Some ec)
  /\ (outcome (createAccessKey net (w, cp)) = inl (system_error ec)
      <-> fault Beast.post net = Some ec)
  /\ (outcome (updateAccessKey net key (w, up)) = inl (system_error ec)
      <-> fault Beast.put net = Some ec)
  /\ (outcome (deleteAccessKey net (w, id)) = inl (system_error ec)
      <-> fault Beast.delete_ net = Some ec).
Proof.
  exactly net w id cp up key.
  split; [apply answer_system_error |].
  split; [apply answer_system_error |].
  split; [apply answer_system_error |].
  split; [apply answer_system_error | apply answer_delete_system_error].
Qed.

(** X4.  An operation returns exactly when the round trip has no fault
    and the response has the status the operation expects, and, for the
    four operations that return a text, when its body parses; the text
    returned is then the serialization of the parsed value. *)
Theorem operations_return_iff
        {P : Platform} (net : network) (w : world) (id : string)
        (cp : CreateAccessKeyParams) (up : UpdateAccessKeyParams) (key : Z)
        (text : string) :
  (outcome (getAccessKeys net w) = inr text
   <-> fault Beast.get net = None /\ observed_status net = 200%Z
       /\ exists val, Json.parse (observed_body net) = inr val
                      /\ text = Json.serialize val)
  /\ (outcome (getAccessKey net (w, id)) = inr text
      <-> fault Beast.get net = None /\ observed_status net = 200%Z
          /\ exists val, Json.parse (observed_body net) = inr val
                         /\ text = Json.serialize val)
  /\ (outcome (createAccessKey net (w, cp)) = inr text
      <-> fault Beast.post net = None /\ observed_status net = 201%Z
          /\ exists val, Json.parse (observed_body net) = inr val
                         /\ text = Json.serialize val)
  /\ (outcome (updateAccessKey net key (w, up)) = inr text
      <-> fault Beast.put net = None /\ observed_status net = 201%Z
          /\ exists val, Json.parse (observed_body net) = inr val
                         /\ text = Json.serialize val)
  /\ (outcome (deleteAccessKey net (w, id)) = inr tt
      <-> fault Beast.delete_ net = None /\ observed_status net = 204%Z).
Proof.
  exactly net w id cp up key.
  split; [apply answer_returns_iff |].
  split; [apply answer_returns_iff |].
  split; [apply answer_returns_iff |].
  split; [apply answer_returns_iff | apply answer_delete_returns_iff].
Qed.

(** X5.  The stored settings survive every operation: the certificate
    text, the timeout and the verification mode are after the call what
    they were before, whatever the outcome, and the requests written
    before the call are still the first ones on the wire.  The state of
    the TLS stream and of the socket is not part of this statement. *)
Theorem settings_survive_every_operation
        {P : Platform} (net : network) (w : world) (id : string)
        (cp : CreateAccessKeyParams) (up : UpdateAccessKeyParams) (key : Z) :
  settings_kept w (final (getAccessKeys net w))
  /\ settings_kept w (fst (final (getAccessKey net (w, id))))
  /\ settings_kept w (fst (final (createAccessKey net (w, cp))))
  /\ settings_kept w (fst (final (updateAccessKey net key (w, up))))
  /\ settings_kept w (fst (final (deleteAccessKey net (w, id)))).
Proof.
  exactly net w id cp up key.
  repeat split; apply settings_kept_after.
Qed.

(** X6.  How the requests are framed.  Every request is HTTP/1.1 and
    names as Host the host of the URL the operation stored.  The requests
    of getAccessKeys, getAccessKey and deleteAccessKey have the Host and
    User-Agent fields only and no body.  Those of createAccessKey and
    updateAccessKey add the JSON content type and a Content-Length whose
    decimal digits give the size of the body. *)
Theorem requests_are_framed
        {P : Platform} (net : network) (w : world) (id : string)
        (cp : CreateAccessKeyParams) (up : UpdateAccessKeyParams) (key : Z)
        (req : Beast.request) :
  (let w' := final (getAccessKeys net w) in
   In req (emitted w w') -> bodiless (Urls.host (m_apiUrl (self w'))) req)
  /\ (let w' := fst (final (getAccessKey net (w, id))) in
      In req (emitted w w') -> bodiless (Urls.host (m_apiUrl (self w'))) req)
  /\ (let w' := fst (final (deleteAccessKey net (w, id))) in
      In req (emitted w w') -> bodiless (Urls.host (m_apiUrl (self w'))) req)
  /\ (let w' := fst (final (createAccessKey net (w, cp))) in
      In req (emitted w w') -> carries_json (Urls.host (m_apiUrl (self w'))) req)
  /\ (let w' := fst (final (updateAccessKey net key (w, up))) in
      In req (emitted w w') -> carries_json (Urls.host (m_apiUrl (self w'))) req).
Proof.
  exactly net w id cp up key. cbv zeta. rewrite !emitted_after.
  unfold after; cbn [self m_apiUrl set_apiUrl].
  repeat apply conj; intros Hin; apply in_written in Hin; subst req;
    first [apply framed_bodiless; auto | apply framed_carries_json; auto].
Qed.

(** X7.  The request of an operation uses the operation's verb and
    targets the URL the operation has just stored, so a second call sends
    its request to the twice appended path: a client serves one call per
    construction. *)
Theorem requests_target_the_stored_url
        {P : Platform} (net net' : network) (w : world) (id : string)
        (cp : CreateAccessKeyParams) (up : UpdateAccessKeyParams) (key : Z)
        (req : Beast.request) :
  (let w' := final (getAccessKeys net w) in
   In req (emitted w w') ->
   Beast.method_ req = Beast.get
   /\ Beast.target req = request_target (m_apiUrl (self w')))
  /\ (let w' := fst (final (getAccessKey net (w, id))) in
      In req (emitted w w') ->
      Beast.method_ req = Beast.get
      /\ Beast.target req = request_target (m_apiUrl (self w')))
  /\ (let w' := fst (final (createAccessKey net (w, cp))) in
      In req (emitted w w') ->
      Beast.method_ req = Beast.post
      /\ Beast.target req = request_target (m_apiUrl (self w')))
  /\ (let w' := fst (final (updateAccessKey net key (w, up))) in
      In req (emitted w w') ->
      Beast.method_ req = Beast.put
      /\ Beast.target req = request_target (m_apiUrl (self w')))
  /\ (let w' := fst (final (deleteAccessKey net (w, id))) in
      In req (emitted w w') ->
      Beast.method_ req = Beast.delete_
      /\ Beast.target req = request_target (m_apiUrl (self w')))
  /\ (let w1 := final (getAccessKeys net w) in
      let w2 := final (getAccessKeys net' w1) in
      In req (emitted w1 w2) ->
      Beast.target req
      = request_target
          (utils.appendUrl
             (utils.appendUrl (m_apiUrl (self w)) api.Endpoints.GetAccessKeys)
             api.Endpoints.GetAccessKeys)).
Proof.
  exactly net w id cp up key. rewrite (getAccessKeys_exact net').
  cbv zeta. cbn [snd]. rewrite !emitted_after.
  unfold after; cbn [self m_apiUrl set_apiUrl].
  repeat apply conj; intros Hin; apply in_written in Hin; subst req;
    try split; reflexivity.
Qed.

(** X8.  The certificate text and the timeout given at construction are
    stored and never read: with another certificate and another timeout
    every operation has the same outcome and leaves the same state, the
    two settings apart. *)
Theorem certificate_and_timeout_are_unused
        {P : Platform} (net : network) (w : world) (id : string)
        (cp : CreateAccessKeyParams) (up : UpdateAccessKeyParams) (key : Z)
        (cert : string) (timeout : Z) :
  let other := with_cert_timeout cert timeout in
  getAccessKeys net (other w)
  = (outcome (getAccessKeys net w), other (final (getAccessKeys net w)))
  /\ getAccessKey net (other w, id)
     = (outcome (getAccessKey net (w, id)),
        (other (fst (final (getAccessKey net (w, id)))), id))
  /\ createAccessKey net (other w, cp)
     = (outcome (createAccessKey net (w, cp)),
        (other (fst (final (createAccessKey net (w, cp)))), cp))
  /\ updateAccessKey net key (other w, up)
     = (outcome (updateAccessKey net key (w, up)),
        (other (fst (final (updateAccessKey net key (w, up)))), up))
  /\ deleteAccessKey net (other w, id)
     = (outcome (deleteAccessKey net (w, id)),
        (other (fst (final (deleteAccessKey net (w, id)))), id)).
Proof.
  intros other. unfold other.
  rewrite (getAccessKeys_exact net (with_cert_timeout cert timeout w)),
    (getAccessKey_exact net (with_cert_timeout cert timeout w) id),
    (createAccessKey_exact net (with_cert_timeout cert timeout w) cp),
    (updateAccessKey_exact net (with_cert_timeout cert timeout w) key up),
    (deleteAccessKey_exact net (with_cert_timeout cert timeout w) id).
  exactly net w id cp up key.
  repeat split; reflexivity.
Qed.

(** ** The identifier of updateAccessKey, continued *)

Lemma char_of_int_wraps (i k : Z) :
  Std.char_of_int (i + 256 * k) = Std.char_of_int i.
Proof.
  unfold Std.char_of_int. rewrite (Z.mul_comm 256 k), Z.mod_add by discriminate.
  reflexivity.
Qed.

(** X9.  The identifier of updateAccessKey counts modulo 256: two
    identifiers that differ by a multiple of 256 give the same call in
    every respect, the same request to the same path and the same
    stored URL. *)
Theorem update_identifier_wraps_at_256
        {P : Platform} (net : network) (key k : Z)
        (s : world * UpdateAccessKeyParams) :
  updateAccessKey net (key + 256 * k) s = updateAccessKey net key s.
Proof.
  unfold updateAccessKey. rewrite char_of_int_wraps. reflexivity.
Qed.

Lemma one_char_inj (a b : ascii) :
  String a EmptyString = String b EmptyString -> a = b.
Proof. intros E. now injection E. Qed.

Lemma digits_single (n : N) :
  n < 10 -> Std.digits n = String (chr (48 + n)) EmptyString.
Proof.
  intros H. unfold Std.digits. cbn [Std.digits_fuel].
  apply N.ltb_lt in H. rewrite H. apply N.ltb_lt in H.
  now rewrite N.mod_small.
Qed.

Lemma digits_long (n : N) :
  10 <= n -> exists c d r, Std.digits n = String c (String d r).
Proof.
  intros H. unfold Std.digits. cbn [Std.digits_fuel].
  destruct (N.ltb_spec n 10) as [Hlt | _]; [lia |].
  rewrite DigitFacts.digits_fuel_app.
  destruct (DigitFacts.digits_fuel_nonzero (N.to_nat (N.size n)) (n / 10))
    as (c & r & E & _).
  - nlia.
  - rewrite N2Nat.id. pose proof (N.size_gt n).
    apply N.le_lt_trans with n; [| assumption]. nlia.
  - rewrite E. cbn [append]. destruct r as [| d r]; cbn [append]; eauto.
Qed.

(** X10.  The text updateAccessKey substitutes for the identifier is
    never the decimal text of the identifier: the decimal text of a
    number from 0 to 9 is the digit, whose code is 48 more than the
    number, and every other decimal text has more than one character. *)
Theorem update_never_substitutes_decimal_text (key : Z) :
  String.eqb (update_id_text key) (Std.to_string key) = false.
Proof.
  apply String.eqb_neq. unfold update_id_text, Std.string_assign_char, Std.char_of_int.
  intros E.
  destruct key as [| p | p]; cbn [Std.to_string Z.to_N] in E.
  - discriminate E.
  - destruct (N.lt_ge_cases (N.pos p) 10) as [Hlt | Hge].
    + assert (Hc : Z.to_N (Z.pos p mod 256) = N.pos p) by nlia.
      rewrite Hc in E. revert Hlt E. generalize (N.pos p) as n. intros n Hlt E.
      rewrite (digits_single _ Hlt) in E. apply one_char_inj in E.
      apply (f_equal code) in E. rewrite !code_chr in E; lia.
    + destruct (digits_long _ Hge) as (c & d & r & Ed). rewrite Ed in E.
      discriminate E.
  - destruct (DigitFacts.digits_nonzero (N.pos p)) as (c & r & Ed & _); [lia |].
    rewrite Ed in E. discriminate E.
Qed.

(** ** A connection closed early, and the shutdown *)

Section CloseFacts.
Context {P : Platform}.

Lemma write_steps_succeed (net : network) :
  (forall s, In s [Resolve; Connect; Handshake; Write] ->
             Sys.failed (step_ec net s) = false) ->
  Sys.failed (resolve_ec net) = false /\ Sys.failed (connect_ec net) = false
  /\ Sys.failed (handshake_ec net) = false /\ Sys.failed (write_ec net) = false.
Proof.
  intros H.
  pose proof (H Resolve) as Hr. pose proof (H Connect) as Hc.
  pose proof (H Handshake) as Hh. pose proof (H Write) as Hw.
  cbn in Hr, Hc, Hh, Hw. intuition.
Qed.

(** When the read ends with [end_of_stream] after a request was written,
    that code is the fault of the round trip for every verb but POST. *)
Lemma fault_at_early_close (v : Beast.verb) (net : network) :
  (forall s, In s [Resolve; Connect; Handshake; Write] ->
             Sys.failed (step_ec net s) = false) ->
  read_ec net = Beast.end_of_stream ->
  fault v net
  = match v with
    | Beast.post =>
        if Sys.failed (shutdown_ec net) && negb (Sys.eqb (shutdown_ec net) Asio.eof)
        then Some (shutdown_ec net) else None
    | _ => Some Beast.end_of_stream
    end.
Proof.
  intros H Hread. apply write_steps_succeed in H. destruct H as (Hr & Hc & Hh & Hw).
  assert (Hf : Sys.failed Beast.end_of_stream = true) by reflexivity.
  assert (He : Sys.eqb Beast.end_of_stream Beast.end_of_stream = true) by reflexivity.
  unfold fault, steps.
  destruct v; cbn [find step_ec tolerated];
    rewrite Hr, Hc, Hh, Hw, Hread, Hf, ?He; cbn [andb negb step_ec];
    rewrite ?Hread; try reflexivity.
  destruct (Sys.failed (shutdown_ec net) && negb (Sys.eqb (shutdown_ec net) Asio.eof));
    reflexivity.
Qed.

(** The fault of a round trip whose steps before the shutdown pass. *)
Lemma fault_at_shutdown (v : Beast.verb) (net : network) :
  (forall s, In s steps_before_shutdown -> passes v net s) ->
  fault v net
  = if Sys.failed (shutdown_ec net) && negb (Sys.eqb (shutdown_ec net) Asio.eof)
    then Some (shutdown_ec net) else None.
Proof.
  intros H. unfold fault.
  destruct (Sys.failed (shutdown_ec net) && negb (Sys.eqb (shutdown_ec net) Asio.eof))
    eqn:E.
  - change steps with (steps_before_shutdown ++ Shutdown :: [])%list.
    rewrite find_first; [reflexivity | | ].
    + intros s Hs. now apply passes_spec, H.
    + destruct v; exact E.
  - rewrite find_none; [reflexivity |].
    intros s Hs. change steps with (steps_before_shutdown ++ [Shutdown])%list in Hs.
    apply in_app_or in Hs. destruct Hs as [Hs | [<- | []]].
    + now apply passes_spec, H.
    + destruct v; exact E.
Qed.

End CloseFacts.

(** X11.  A connection the peer closes after the request was written and
    before it answers makes the read end with [end_of_stream].  Four
    operations report that as the [system_error] it is, whatever the
    shutdown would do.  createAccessKey goes on to the shutdown.  When
    the shutdown succeeds or ends with [eof], createAccessKey raises no
    [system_error]: it takes the response message as the read left it,
    and raises the server error for its status unless that is 201.  When
    the shutdown fails with another code, createAccessKey raises
    [system_error] with the code of the shutdown. *)
Theorem early_close_is_hidden_by_create_only
        {P : Platform} (net : network) (w : world) (id : string)
        (cp : CreateAccessKeyParams) (up : UpdateAccessKeyParams) (key : Z) :
  (forall s, In s [Resolve; Connect; Handshake; Write] ->
             Sys.failed (step_ec net s) = false) ->
  read_ec net = Beast.end_of_stream ->
  outcome (getAccessKeys net w) = inl (system_error Beast.end_of_stream)
  /\ outcome (getAccessKey net (w, id)) = inl (system_error Beast.end_of_stream)
  /\ outcome (updateAccessKey net key (w, up)) = inl (system_error Beast.end_of_stream)
  /\ outcome (deleteAccessKey net (w, id)) = inl (system_error Beast.end_of_stream)
  /\ (passes Beast.post net Shutdown ->
      is_system_error (outcome (createAccessKey net (w, cp))) = false
      /\ (observed_status net <> 201%Z ->
          outcome (createAccessKey net (w, cp))
          = inl (OutlineServerErrorException
                   ("Unable to create key (status="
                      ++ Std.to_string (observed_status net) ++ ")"))))
  /\ (Sys.failed (shutdown_ec net) = true -> shutdown_ec net <> Asio.eof ->
      outcome (createAccessKey net (w, cp)) = inl (system_error (shutdown_ec net))).
Proof.
  intros Hsteps Hread.
  exactly net w id cp up key.
  unfold answer, answer_delete. rewrite !fault_at_early_close by assumption.
  split; [reflexivity |]. split; [reflexivity |].
  split; [reflexivity |]. split; [reflexivity |]. split.
  - intros Hshut. apply passes_spec in Hshut. cbn [step_ec tolerated] in Hshut.
    rewrite Hshut. split.
    + destruct (observed_status net =? 201)%Z; [| reflexivity].
      destruct (Json.parse (observed_body net)); reflexivity.
    + intros Hs. apply Z.eqb_neq in Hs. now rewrite Hs.
  - intros Hfailed Hne. rewrite Hfailed.
    destruct (Sys.eqb (shutdown_ec net) Asio.eof) eqn:E; [| reflexivity].
    apply error_code_eqb_eq in E. contradiction.
Qed.

Lemma early_close_is_hidden_by_create_only_witness :
  outcome (updateAccessKey (P := samples.platform) samples.closes_early 7
             (samples.fresh, samples.update_method_only))
  = inl (system_error Beast.end_of_stream)
  /\ outcome (createAccessKey (P := samples.platform) samples.closes_early
                (samples.fresh, samples.create_alice))
     = inl (OutlineServerErrorException "Unable to create key (status=200)")
  /\ outcome (createAccessKey (P := samples.platform) samples.closes_early_unconnected
                (samples.fresh, samples.create_alice))
     = inl (system_error Asio.not_connected).
Proof.
  assert (Hsteps : forall net,
             resolve_ec net = Sys.success -> connect_ec net = Sys.success ->
             handshake_ec net = Sys.success -> write_ec net = Sys.success ->
             forall s, In s [Resolve; Connect; Handshake; Write] ->
                       Sys.failed (step_ec net s) = false).
  { intros net Hr Hc Hh Hw s [<- | [<- | [<- | [<- | []]]]]; cbn [step_ec];
      rewrite ?Hr, ?Hc, ?Hh, ?Hw; reflexivity. }
  destruct (early_close_is_hidden_by_create_only
              (P := samples.platform) samples.closes_early samples.fresh "1"
              samples.create_alice samples.update_method_only 7
              (Hsteps samples.closes_early eq_refl eq_refl eq_refl eq_refl) eq_refl)
    as (_ & _ & Hu & _ & Hc & _).
  destruct (early_close_is_hidden_by_create_only
              (P := samples.platform) samples.closes_early_unconnected samples.fresh "1"
              samples.create_alice samples.update_method_only 7
              (Hsteps samples.closes_early_unconnected eq_refl eq_refl eq_refl eq_refl)
              eq_refl)
    as (_ & _ & _ & _ & _ & Hn).
  split; [exact Hu |]. split.
  - apply (proj2 (Hc (or_intror eq_refl))). discriminate.
  - apply Hn; [reflexivity | discriminate].
Defined.

(** X12.  The transport operations and the destructor judge a failed
    shutdown by different codes.  After steps that passed, a transport
    operation returns exactly when the shutdown failed with [eof], and
    the destructor stays silent exactly when it failed with
    [not_connected].  So the destructor reports the [eof] the transport
    accepts, and the transport raises the [not_connected] the destructor
    accepts. *)
Theorem shutdown_codes_are_judged_differently
        {P : Platform} (message : Sys.error_code -> string)
        (v : Beast.verb) (net : network) (url : Urls.url) (body : string) (w : world) :
  Sys.failed (shutdown_ec net) = true ->
  (forall s, In s steps_before_shutdown -> passes v net s) ->
  (outcome (transport v net url body w) = inr (observed_status net, observed_body net)
   <-> shutdown_ec net = Asio.eof)
  /\ (delete_OutlineClient message (shutdown_ec net) = []
      <-> shutdown_ec net = Asio.not_connected)
  /\ (shutdown_ec net = Asio.eof ->
      delete_OutlineClient message (shutdown_ec net)
      = ["Shutdown error: " ++ message Asio.eof])
  /\ (shutdown_ec net = Asio.not_connected ->
      outcome (transport v net url body w) = inl (system_error Asio.not_connected)).
Proof.
  intros Hfailed Hsteps.
  rewrite transport_outcome, (fault_at_shutdown v net Hsteps), Hfailed.
  unfold delete_OutlineClient. rewrite Hfailed. cbn [andb].
  split; [| split; [| split]].
  - rewrite <- error_code_eqb_eq.
    destruct (Sys.eqb (shutdown_ec net) Asio.eof); cbn [negb]; split; auto; discriminate.
  - rewrite <- error_code_eqb_eq.
    destruct (Sys.eqb (shutdown_ec net) Asio.not_connected); cbn [negb]; split; auto;
      discriminate.
  - intros ->. reflexivity.
  - intros ->. reflexivity.
Qed.

Lemma shutdown_codes_are_judged_differently_witness :
  outcome (doHttpsPost (P := samples.platform) samples.closes_early samples.base_url
             "{}" samples.fresh)
  = inr (200%Z, EmptyString)
  /\ delete_OutlineClient (fun _ => "End of file") (shutdown_ec samples.closes_early)
     = ["Shutdown error: End of file"].
Proof.
  assert (Hsteps : forall s, In s steps_before_shutdown ->
                             passes Beast.post samples.closes_early s).
  { intros s [<- | [<- | [<- | [<- | [<- | []]]]]];
      first [left; reflexivity | right; reflexivity]. }
  destruct (shutdown_codes_are_judged_differently
              (P := samples.platform) (fun _ => "End of file") Beast.post
              samples.closes_early samples.base_url "{}" samples.fresh
              eq_refl Hsteps)
    as (Hreturns & _ & Hlogs & _).
  split; [now apply Hreturns | now apply Hlogs].
Defined.

(** ** The request target, continued *)

(** X13.  The target is the path, followed by the query after a question
    mark when the query is not empty, exactly for a URL that has neither
    a query nor a fragment.  In every other case the target holds more:
    the fragment, a question mark without a query, or the query twice. *)
Theorem request_target_is_path_and_query_iff (u : Urls.url) :
  request_target u = path_and_query u
  <-> Urls.query u = None /\ Urls.fragment u = None.
Proof.
  unfold request_target, path_and_query, Urls.from_path_data, Urls.encoded_query.
  destruct (Urls.query u) as [query |], (Urls.fragment u) as [f |];
    try destruct (String.eqb_spec query EmptyString) as [-> | Hq];
    cbn [String.eqb];
    (split; [intros E | intros (Hq' & Hf'); try discriminate; auto]);
    try reflexivity; try (split; reflexivity);
    exfalso; apply (f_equal String.length) in E;
    rewrite ?string_length_app in E; cbn [String.length append] in E;
    rewrite ?string_length_app in E; cbn [String.length append] in E;
    lia.
Qed.

(** ** Settings *)

(** X14.  Construction turns peer verification off and no operation
    turns it on: a client that was constructed has it off after every
    operation, whatever the outcome. *)
Theorem peer_verification_stays_disabled
        {P : Platform} (apiUrl cert : string) (timeout : Z) (c : OutlineClient)
        (net : network) (sent_before : list Beast.request) (id : string)
        (cp : CreateAccessKeyParams) (up : UpdateAccessKeyParams) (key : Z) :
  new_OutlineClient apiUrl cert timeout = inr c ->
  let w := {| self := c; wire := sent_before |} in
  m_verify_mode c = verify_none
  /\ m_verify_mode (self (final (getAccessKeys net w))) = verify_none
  /\ m_verify_mode (self (fst (final (getAccessKey net (w, id))))) = verify_none
  /\ m_verify_mode (self (fst (final (createAccessKey net (w, cp))))) = verify_none
  /\ m_verify_mode (self (fst (final (updateAccessKey net key (w, up))))) = verify_none
  /\ m_verify_mode (self (fst (final (deleteAccessKey net (w, id))))) = verify_none.
Proof.
  intros Hnew w.
  assert (Hc : m_verify_mode c = verify_none).
  { unfold new_OutlineClient in Hnew. destruct (parse_uri apiUrl); [discriminate |].
    now injection Hnew as <-. }
  exactly net w id cp up key. unfold after; cbn [self m_verify_mode set_apiUrl].
  repeat split; exact Hc.
Qed.

Lemma peer_verification_stays_disabled_witness :
  m_verify_mode
    (self (final (getAccessKeys (P := samples.platform) (samples.answers 200 "{}")
                    samples.fresh)))
  = verify_none.
Proof.
  exact (proj1 (proj2 (peer_verification_stays_disabled
                         (P := samples.platform)
                         "https://vpn.example.org:8443/secret" EmptyString 5
                         samples.client (samples.answers 200 "{}") [] "1"
                         samples.create_nothing samples.update_method_only 1
                         eq_refl))).
Defined.

(** X15.  Only a transport fault can precede the request: whenever an
    operation returns, or raises the server error or the parse error,
    its request has been written. *)
Theorem typed_outcomes_follow_a_written_request
        {P : Platform} (net : network) (w : world) (id : string)
        (cp : CreateAccessKeyParams) (up : UpdateAccessKeyParams) (key : Z) :
  (is_system_error (outcome (getAccessKeys net w)) = false ->
   List.length (emitted w (final (getAccessKeys net w))) = 1%nat)
  /\ (is_system_error (outcome (getAccessKey net (w, id))) = false ->
      List.length (emitted w (fst (final (getAccessKey net (w, id))))) = 1%nat)
  /\ (is_system_error (outcome (createAccessKey net (w, cp))) = false ->
      List.length (emitted w (fst (final (createAccessKey net (w, cp))))) = 1%nat)
  /\ (is_system_error (outcome (updateAccessKey net key (w, up))) = false ->
      List.length (emitted w (fst (final (updateAccessKey net key (w, up))))) = 1%nat)
  /\ (is_system_error (outcome (deleteAccessKey net (w, id))) = false ->
      List.length (emitted w (fst (final (deleteAccessKey net (w, id))))) = 1%nat).
Proof.
  exactly net w id cp up key. rewrite !emitted_after.
  repeat apply conj; intros H;
    first [apply answer_not_system_error in H | apply answer_delete_not_system_error in H];
    apply no_fault_writes in H; rewrite H; reflexivity.
Qed.

(** ** The request body, read back *)

Section BodyFacts.
Context {P : Platform}.

Lemma serialize_read_integer (b : N) :
  Json.serialize (read_integer b) = Std.digits b.
Proof.
  unfold read_integer. destruct (b <? 2 ^ 63); [| reflexivity].
  destruct b; reflexivity.
Qed.

Lemma parsed_read_integer (d : nat) (b : N) :
  b < 2 ^ 64 -> Json.parsed d (read_integer b).
Proof.
  intros H. unfold read_integer. destruct (N.ltb_spec b (2 ^ 63)).
  - apply Json.parsed_int64. lia.
  - apply Json.parsed_uint64. lia.
Qed.

Lemma serialize_received_object (name password method : option string)
      (limit : option N) :
  Json.serialize (received_object name password method limit)
  = Json.serialize (request_object name password method limit).
Proof.
  unfold received_object, request_object, present.
  destruct name, password, method, limit; cbn [Json.serialize List.map app fst snd];
    rewrite ?serialize_read_integer; reflexivity.
Qed.

Lemma ascii_utf8 (s : string) :
  forallb (fun c => code c <? 128) (list_ascii_of_string s) = true -> Json.utf8 s.
Proof.
  induction s as [| c r IH]; cbn [list_ascii_of_string forallb]; intros H.
  - constructor.
  - apply andb_true_iff in H as [Hc Hr]. apply Json.utf8_1; [| now apply IH].
    now apply N.ltb_lt.
Qed.

Lemma Forall_present {A : Type} (Q : string * Json.value -> Prop) (k : string)
      (f : A -> Json.value) (o : option A) :
  (forall a, o = Some a -> Q (k, f a)) -> Forall Q (present k f o).
Proof.
  intros H. destruct o as [a |]; cbn [present]; constructor; [now apply H | constructor].
Qed.

Lemma parsed_received_object (name password method : option string)
      (limit : option N) :
  readable name password method limit ->
  Json.parsed Json.max_depth (received_object name password method limit).
Proof.
  intros [Hs Hb]. change Json.max_depth with (S (S 30)).
  unfold received_object. apply Json.parsed_object.
  - apply Forall_app; split; [| apply Forall_app; split; [| apply Forall_app; split]];
      apply Forall_present; intros a ->; cbn [fst snd];
      (split; [now apply ascii_utf8 |]).
    + apply Json.parsed_string, Hs. cbn; auto.
    + apply Json.parsed_string, Hs. cbn; auto.
    + apply Json.parsed_string, Hs. cbn; auto.
    + apply Json.parsed_object.
      * constructor; [| constructor]. cbn [fst snd].
        split; [now apply ascii_utf8 |]. apply parsed_read_integer. now apply Hb.
      * cbn [List.map fst]. constructor; [intros [] | constructor].
  - unfold present.
    destruct name, password, method, limit; cbn [List.map app fst];
      repeat (constructor; [cbn [In]; intuition discriminate |]); constructor.
Qed.

Lemma doubles_of_received_object (name password method : option string)
      (limit : option N) :
  Json.doubles_of (received_object name password method limit) = [].
Proof.
  unfold received_object, present, read_integer.
  destruct name, password, method, limit; cbn;
    try destruct (_ <? _); reflexivity.
Qed.

Lemma request_object_reads_back (name password method : option string)
      (limit : option N) :
  readable name password method limit ->
  Json.parse (Json.serialize (request_object name password method limit))
  = inr (received_object name password method limit).
Proof.
  intros H. rewrite <- serialize_received_object.
  apply parse_serialize_parsed; [now apply parsed_received_object |].
  rewrite doubles_of_received_object. constructor.
Qed.

End BodyFacts.

(** X16.  The bodies createAccessKey and updateAccessKey send are JSON
    texts: when the strings given are well-formed UTF-8 and the data
    limit is below 2^64, the parser reads the body of the request back
    as the object with one member for each field that is present, in the
    order name, password, method, limit. *)
Theorem request_bodies_read_back
        {P : Platform} (net : network) (w : world) (key : Z)
        (name password method : option string) (limit : option N)
        (req : Beast.request) :
  readable name password method limit ->
  let cp := {| create_name := name; create_password := password;
               create_method := method; create_data_limit_bytes := limit |} in
  let up := {| update_name := name; update_password := password;
               update_method := method; update_data_limit_bytes := limit |} in
  (In req (emitted w (fst (final (createAccessKey net (w, cp))))) ->
   Json.parse (Beast.body req) = inr (received_object name password method limit))
  /\ (In req (emitted w (fst (final (updateAccessKey net key (w, up))))) ->
      Json.parse (Beast.body req) = inr (received_object name password method limit)).
Proof.
  intros Hr cp up.
  exactly net w EmptyString cp up key. rewrite !emitted_after.
  split; intros Hin; apply in_written in Hin; subst req; cbn [framed Beast.body];
    now apply request_object_reads_back.
Qed.

Lemma request_bodies_read_back_witness :
  Json.parse (D := samples.text_double) (q "{'name':'alice','limit':{'bytes':1000}}")
  = inr (Json.JObject
           [("name", Json.JString "alice");
            ("limit", Json.JObject [("bytes", Json.JInt64 1000)])]).
Proof.
  assert (Hr : readable (Some "alice") None None (Some 1000)).
  { split.
    - intros s [E | [E | [E | []]]]; try discriminate E.
      injection E as <-. now apply ascii_utf8.
    - intros b E. injection E as <-. reflexivity. }
  apply (proj1 (request_bodies_read_back
                  (P := samples.platform) (samples.answers 201 "{}") samples.fresh 1
                  (Some "alice") None None (Some 1000)
                  (framed (P := samples.platform) Beast.post
                     (utils.appendUrl samples.base_url api.Endpoints.CreateAccessKey)
                     (q "{'name':'alice','limit':{'bytes':1000}}"))
                  Hr)).
  left. reflexivity.
Defined.

(** ** Documents without floating-point numbers *)


